(** * Audio-Processing-Pipeline: the transcript segmenter and the clip mapper

    A shallow embedding of [scripts/pipeline.py] and of the copy of its
    segmentation core in [scripts/pipeline_no_ffmpeg.py], with the
    properties of the segmentation engine and of the clip export.

    Python values are modelled as follows.
    - [str] is a list of Unicode code points ([N]); [len] is [length].
    - [float] is Rocq's primitive binary64 float, which is what a Python
      float is; [-], [*], [<], [==], [>=] are the IEEE operations.
    - [int] is [Z].
    - a [dict] with a fixed set of keys is a record.
    - an exception is the [Raise] constructor of [result]. *)

From Stdlib Require Import String Ascii Decimal DecimalString DecimalNat.
From Stdlib Require Import ZArith NArith List Bool Lia Floats Sorted.
From Stdlib Require Import Permutation.
From Stdlib Require Uint63.
Import ListNotations.

(* ------------------------------------------------------------------ *)
(** ** The Python run time *)

Module Py.

(** A Python [str]: a sequence of code points. *)
Definition str := list N.

(** A literal written in ASCII. *)
Definition lit (s : String.string) : str :=
  map Ascii.N_of_ascii (String.list_ascii_of_string s).

Inductive exn :=
| IndexError
| ValueError
| OverflowError
| IOError.

Inductive result (A : Type) :=
| Ok (a : A)
| Raise (e : exn).
Arguments Ok {A} a.
Arguments Raise {A} e.

Definition bind {A B} (c : result A) (k : A -> result B) : result B :=
  match c with
  | Ok a => k a
  | Raise e => Raise e
  end.

(** [for x in xs: st = body(st, x)], stopping at the first exception. *)
Fixpoint for_each {S X} (body : S -> X -> result S) (xs : list X) (st : S)
  : result S :=
  match xs with
  | [] => Ok st
  | x :: rest => bind (body st x) (for_each body rest)
  end.

(** [enumerate(xs, start)]. *)
Definition enumerate {X} (from : nat) (xs : list X) : list (nat * X) :=
  combine (seq from (length xs)) xs.

(** [xs[i]], negative indices counting from the end. *)
Definition getitem {X} (xs : list X) (i : Z) : result X :=
  let n := Z.of_nat (length xs) in
  let j := if (i <? 0)%Z then (i + n)%Z else i in
  if ((0 <=? j) && (j <? n))%Z then
    match nth_error xs (Z.to_nat j) with
    | Some x => Ok x
    | None => Raise IndexError
    end
  else Raise IndexError.

(** [c in cs]. *)
Definition contains (cs : list N) (c : N) : bool :=
  existsb (N.eqb c) cs.

(** [str.isspace] on one code point: the code points CPython's
    [_PyUnicode_IsWhitespace] accepts; [\s] of [re] on a [str] pattern
    and [str.strip()] both use it. *)
Definition isspace (c : N) : bool :=
  ((9 <=? c) && (c <=? 13) || (28 <=? c) && (c <=? 32)
   || (c =? 133) || (c =? 160) || (c =? 5760)
   || (8192 <=? c) && (c <=? 8202)
   || (c =? 8232) || (c =? 8233) || (c =? 8239) || (c =? 8287)
   || (c =? 12288))%N.

Fixpoint lstrip (s : str) : str :=
  match s with
  | [] => []
  | c :: rest => if isspace c then lstrip rest else s
  end.

Definition rstrip (s : str) : str := rev (lstrip (rev s)).

(** [s.strip()]. *)
Definition strip (s : str) : str := rstrip (lstrip s).

(** [re.sub(r"\s+", " ", s)]: every maximal run of whitespace becomes
    one U+0020.  [in_run] tells that the previous character was
    whitespace, so the replacement has been written already. *)
Fixpoint sub_ws_run (in_run : bool) (s : str) : str :=
  match s with
  | [] => []
  | c :: rest =>
      if isspace c then
        if in_run then sub_ws_run true rest
        else 32%N :: sub_ws_run true rest
      else c :: sub_ws_run false rest
  end.

(** Does [s], after its leading whitespace, start with a character of
    [cls]? *)
Definition ws_then (cls : list N) (s : str) : bool :=
  match lstrip s with
  | c :: _ => contains cls c
  | [] => false
  end.

(** [re.sub(r"\s+([cls])", r"\1", s)] for a class [cls] without
    whitespace: a match starts at a whitespace character whose maximal
    run is followed by a character of [cls] (a shorter run is followed
    by whitespace, which is not in [cls]); the run is dropped, the
    character kept, and the scan goes on after it. *)
Fixpoint sub_ws_before (cls : list N) (s : str) : str :=
  match s with
  | [] => []
  | c :: rest =>
      if isspace c && ws_then cls rest then sub_ws_before cls rest
      else c :: sub_ws_before cls rest
  end.

(** [accum_text[-1]] guarded by [accum_text and ...]. *)
Definition last_char (s : str) : option N :=
  match rev s with
  | c :: _ => Some c
  | [] => None
  end.

(** [a < b] on [str]: lexicographic on code points. *)
Fixpoint str_lt (a b : str) : bool :=
  match a, b with
  | _, [] => false
  | [], _ :: _ => true
  | c :: a', d :: b' =>
      if (c <? d)%N then true
      else if (c =? d)%N then str_lt a' b'
      else false
  end.

(** [(a1, a2) < (b1, b2)] on tuples of floats: the first position where
    the items are not [==] decides.  (Python also takes an item for
    equal to itself when it is the same object, which changes the
    outcome for a NaN only.) *)
Definition tuple_lt (a b : float * float) : bool :=
  if negb (fst a =? fst b)%float then (fst a <? fst b)%float
  else if negb (snd a =? snd b)%float then (snd a <? snd b)%float
  else false.

(** [xs.sort(key=key)]: the sort is stable and compares keys with [<]
    only; where [<] orders the keys, what it returns is what any stable
    sort returns, computed here by insertion.  [insert] puts [x], which
    stood before every element of [xs], in front of the first element
    that is not below it.  Where [<] does not order the keys (a NaN
    among floats) and the list is not in order already, what
    [list.sort] returns depends on how it finds and merges its runs,
    and [sort] does not stand for it: the statements about [sort] are
    about lists in order already or without a NaN. *)
Section Sort.
Variables (X K : Type) (lt : K -> K -> bool) (key : X -> K).

Fixpoint insert (x : X) (xs : list X) : list X :=
  match xs with
  | [] => [x]
  | y :: rest =>
      if lt (key y) (key x) then y :: insert x rest
      else x :: xs
  end.

Fixpoint sort (xs : list X) : list X :=
  match xs with
  | [] => []
  | x :: rest => insert x (sort rest)
  end.
(** No element is above the one that follows it. *)
Fixpoint is_sorted (xs : list X) : bool :=
  match xs with
  | [] => true
  | x :: rest =>
      match rest with
      | [] => true
      | y :: _ => negb (lt (key y) (key x)) && is_sorted rest
      end
  end.
End Sort.
Arguments insert {X K} lt key x xs.
Arguments sort {X K} lt key xs.
Arguments is_sorted {X K} lt key xs.

(** [int(x)] of a float: truncation toward zero; infinities and NaN
    raise. *)
Definition int (x : float) : result Z :=
  match Prim2SF x with
  | S754_zero _ => Ok 0%Z
  | S754_infinity _ => Raise OverflowError
  | S754_nan => Raise ValueError
  | S754_finite s m e =>
      let a := if (0 <=? e)%Z then (Z.pos m * 2 ^ e)%Z
               else (Z.pos m / 2 ^ (- e))%Z in
      Ok (if s then (- a)%Z else a)
  end.

(** [round(x)] of a float, without [ndigits]: the nearest integer, a
    tie going to the even one. *)
Definition round (x : float) : result Z :=
  match Prim2SF x with
  | S754_zero _ => Ok 0%Z
  | S754_infinity _ => Raise OverflowError
  | S754_nan => Raise ValueError
  | S754_finite s m e =>
      let a :=
        if (0 <=? e)%Z then (Z.pos m * 2 ^ e)%Z
        else
          let d := (2 ^ (- e))%Z in
          let q := (Z.pos m / d)%Z in
          let r := (Z.pos m mod d)%Z in
          if (2 * r <? d)%Z then q
          else if (2 * r =? d)%Z then (if Z.even q then q else q + 1)%Z
          else (q + 1)%Z in
      Ok (if s then (- a)%Z else a)
  end.

(** [str(n)] for a natural number. *)
Definition decimal (n : nat) : str :=
  lit (NilEmpty.string_of_uint (Nat.to_uint n)).

(** [s.zfill(width)], the padding of [f"{n:03}"]: at least [width]
    characters, zeros in front. *)
Definition zfill (width : nat) (s : str) : str :=
  repeat 48%N (width - length s) ++ s.

End Py.

Import Py.

Notation "x <- c ;; k" := (Py.bind c (fun x => k))
  (at level 61, c at next level, right associativity).

(* ------------------------------------------------------------------ *)
(** ** The data model *)

(** A word of the recogniser: [{"text": str, "start": float, "end": float}]. *)
Module Word.
Record t := mk { text : str; start : float; end_ : float }.
End Word.

(** A sentence: [dict(text=..., start_time=..., end_time=...)]. *)
Module Sentence.
Record t := mk { text : str; start_time : float; end_time : float }.
End Sentence.

(** An entry of the manifest:
    [{"text": ..., "start_time": ..., "end_time": ..., "path": ...}]. *)
Module ClipRecord.
Record t :=
  mk { text : str; start_time : float; end_time : float; path : str }.
End ClipRecord.

(** What the program does to the world outside: the directories it
    makes and the files it writes.  The world is the list of the
    operations that succeeded, oldest first. *)
Inductive event :=
| Mkdir (dir : str)
| ExportMp3 (path : str) (start_ms end_ms : Z)
| WriteJson (path : str) (items : list ClipRecord.t)
| WriteSrt (path : str) (items : list ClipRecord.t).

Definition world := list event.

(** A computation with effects: it ends in a value or in an exception,
    and what it did before an exception stays done. *)
Definition io (A : Type) := world -> result A * world.

Definition io_ret {A} (a : A) : io A := fun wd => (Ok a, wd).

Definition io_lift {A} (r : result A) : io A := fun wd => (r, wd).

Definition io_bind {A B} (c : io A) (k : A -> io B) : io B :=
  fun wd =>
    match c wd with
    | (Ok a, wd') => k a wd'
    | (Raise e, wd') => (Raise e, wd')
    end.

Notation "x <~ c ;; k" := (io_bind c (fun x => k))
  (at level 61, c at next level, right associativity).

Fixpoint io_for_each {S X} (body : S -> X -> io S) (xs : list X) (st : S)
  : io S :=
  match xs with
  | [] => io_ret st
  | x :: rest => st' <~ body st x ;; io_for_each body rest st'
  end.

(* ------------------------------------------------------------------ *)
(** ** scripts/pipeline.py: the segmenter *)

Module Pipeline.

(** [set(list(".!?。！？…"))] *)
Definition SENTENCE_END_CHARS : list N :=
  [46; 33; 63; 12290; 65281; 65311; 8230]%N.

(** The class [[。！？…]] of the second substitution. *)
Definition CJK_END_CHARS : list N := [12290; 65281; 65311; 8230]%N.

Definition should_close_sentence (accum_text : str) (current_word : Word.t)
    (next_word : option Word.t) (gap_threshold : float) : bool :=
  if match last_char accum_text with
     | Some c => contains SENTENCE_END_CHARS c
     | None => false
     end
  then true
  else
    match next_word with
    | Some next_w =>
        let gap := (Word.start next_w - Word.end_ current_word)%float in
        if (gap_threshold <=? gap)%float then true else false
    | None => false
    end.

Definition normalize_spacing (s : str) : str :=
  let s := strip (sub_ws_run false s) in
  sub_ws_before CJK_END_CHARS s.

(** ["".join(x["text"] for x in acc)] *)
Definition join_text (acc : list Word.t) : str :=
  concat (map Word.text acc).

(** The decision of the loop body: [need_close]. *)
Definition need_close (accum_text : str) (w : Word.t)
    (next_w : option Word.t) (gap_threshold : float) (max_chars : Z) : bool :=
  if should_close_sentence accum_text w next_w gap_threshold then true
  else if (max_chars <=? Z.of_nat (length accum_text))%Z then true
  else false.

(** The block run on closure and again on the final flush:
    the sentence of [acc], appended when its text is not blank. *)
Definition emit (acc : list Word.t) (accum_text : str)
    (sentences : list Sentence.t) : result (list Sentence.t) :=
  first <- getitem acc 0 ;;
  last <- getitem acc (-1) ;;
  let start := Word.start first in
  let end_ := Word.end_ last in
  let text := normalize_spacing accum_text in
  if match strip text with [] => false | _ => true end
  then Ok (sentences ++ [Sentence.mk text start end_])
  else Ok sentences.

(** One iteration of [for i, w in enumerate(words)] on the state
    [(acc, sentences)]. *)
Definition loop_body (words : list Word.t) (gap_threshold : float)
    (max_chars : Z) (st : list Word.t * list Sentence.t)
    (iw : nat * Word.t) : result (list Word.t * list Sentence.t) :=
  let '(acc, sentences) := st in
  let '(i, w) := iw in
  let acc := acc ++ [w] in
  let next_w :=
    if (i + 1 <? length words)%nat then nth_error words (i + 1) else None in
  let accum_text := join_text acc in
  if need_close accum_text w next_w gap_threshold max_chars then
    sentences <- emit acc accum_text sentences ;;
    Ok ([], sentences)
  else Ok (acc, sentences).

Definition words_to_sentences (words : list Word.t) (gap_threshold : float)
    (max_chars : Z) : result (list Sentence.t) :=
  match words with
  | [] => Ok []
  | _ =>
      st <- for_each (loop_body words gap_threshold max_chars)
              (enumerate 0 words) ([], []) ;;
      let '(acc, sentences) := st in
      match acc with
      | [] => Ok sentences
      | _ => emit acc (join_text acc) sentences
      end
  end.

(** The last statement of [transcribe]:
    [words.sort(key=lambda w: (w["start"], w["end"]))], for words that
    are in order already or have no NaN among their times (see
    [sort]). *)
Definition sort_words (words : list Word.t) : list Word.t :=
  sort tuple_lt (fun w => (Word.start w, Word.end_ w)) words.

(** The order [sort_words] leaves the words in. *)
Definition words_sorted (words : list Word.t) : bool :=
  is_sorted tuple_lt (fun w => (Word.start w, Word.end_ w)) words.

(** Lines 131-132 of [export_clips]: the bounds of the slice. *)
Definition ms_bounds (sent : Sentence.t) : result (Z * Z) :=
  a <- int (Sentence.start_time sent * 1000)%float ;;
  let start_ms := Z.max a 0 in
  b <- int (Sentence.end_time sent * 1000)%float ;;
  let end_ms := Z.max b (start_ms + 1) in
  Ok (start_ms, end_ms).

(** [f"segment_{i:03}.mp3"] *)
Definition filename (i : nat) : str :=
  lit "segment_" ++ zfill 3 (decimal i) ++ lit ".mp3".

Section ClipExport.

(** The environment: whether an operation raises in a given world. *)
Variable fails : world -> event -> option exn.

(** [round(x, 3)] *)
Variable round3 : float -> float.

Definition perform (ev : event) : io unit :=
  fun wd =>
    match fails wd ev with
    | Some e => (Raise e, wd)
    | None => (Ok tt, wd ++ [ev])
    end.

(** One iteration of [for i, sent in enumerate(sentences, start=1)] on
    the list [results]. *)
Definition export_step (seg_dir : str) (results : list ClipRecord.t)
    (isent : nat * Sentence.t) : io (list ClipRecord.t) :=
  let '(i, sent) := isent in
  bounds <~ io_lift (ms_bounds sent) ;;
  let '(start_ms, end_ms) := bounds in
  let filename := filename i in
  let abs_path := seg_dir ++ lit "/" ++ filename in
  _ <~ perform (ExportMp3 abs_path start_ms end_ms) ;;
  io_ret
    (results ++
     [ClipRecord.mk (Sentence.text sent)
        (round3 (Sentence.start_time sent))
        (round3 (Sentence.end_time sent))
        (lit "segments/" ++ filename)]).

Definition export_clips (sentences : list Sentence.t) (out_dir : str)
  : io (list ClipRecord.t) :=
  let seg_dir := out_dir ++ lit "/segments" in
  _ <~ perform (Mkdir seg_dir) ;;
  io_for_each (export_step seg_dir) (enumerate 1 sentences) [].

Definition write_json (items : list ClipRecord.t) (out_dir : str)
  : io unit :=
  perform (WriteJson (out_dir ++ lit "/segments.json") items).

(** The cues are a function of [items]; the event keeps [items]. *)
Definition maybe_write_srt (items : list ClipRecord.t) (out_dir : str)
    (export : bool) : io unit :=
  if negb export then io_ret tt
  else perform (WriteSrt (out_dir ++ lit "/segments.srt") items).

(** [main] from step [4/5] on. *)
Definition main_export (sentences : list Sentence.t) (out_dir : str)
    (export_srt : bool) : io unit :=
  items <~ export_clips sentences out_dir ;;
  _ <~ write_json items out_dir ;;
  maybe_write_srt items out_dir export_srt.

End ClipExport.

End Pipeline.

(* ------------------------------------------------------------------ *)
(** ** scripts/pipeline_no_ffmpeg.py: its copy of the segmenter *)

Module PipelineNoFfmpeg.

(** [set(list(".!?。！？…"))] *)
Definition SENTENCE_END_CHARS : list N :=
  [46; 33; 63; 12290; 65281; 65311; 8230]%N.

Definition CJK_END_CHARS : list N := [12290; 65281; 65311; 8230]%N.

Definition should_close_sentence (accum_text : str) (current_word : Word.t)
    (next_word : option Word.t) (gap_threshold : float) : bool :=
  if match last_char accum_text with
     | Some c => contains SENTENCE_END_CHARS c
     | None => false
     end
  then true
  else
    match next_word with
    | Some next_w =>
        let gap := (Word.start next_w - Word.end_ current_word)%float in
        if (gap_threshold <=? gap)%float then true else false
    | None => false
    end.

Definition normalize_spacing (s : str) : str :=
  let s := strip (sub_ws_run false s) in
  sub_ws_before CJK_END_CHARS s.

Definition join_text (acc : list Word.t) : str :=
  concat (map Word.text acc).

Definition need_close (accum_text : str) (w : Word.t)
    (next_w : option Word.t) (gap_threshold : float) (max_chars : Z) : bool :=
  if should_close_sentence accum_text w next_w gap_threshold then true
  else if (max_chars <=? Z.of_nat (length accum_text))%Z then true
  else false.

Definition emit (acc : list Word.t) (accum_text : str)
    (sentences : list Sentence.t) : result (list Sentence.t) :=
  first <- getitem acc 0 ;;
  last <- getitem acc (-1) ;;
  let start := Word.start first in
  let end_ := Word.end_ last in
  let text := normalize_spacing accum_text in
  if match strip text with [] => false | _ => true end
  then Ok (sentences ++ [Sentence.mk text start end_])
  else Ok sentences.

Definition loop_body (words : list Word.t) (gap_threshold : float)
    (max_chars : Z) (st : list Word.t * list Sentence.t)
    (iw : nat * Word.t) : result (list Word.t * list Sentence.t) :=
  let '(acc, sentences) := st in
  let '(i, w) := iw in
  let acc := acc ++ [w] in
  let next_w :=
    if (i + 1 <? length words)%nat then nth_error words (i + 1) else None in
  let accum_text := join_text acc in
  if need_close accum_text w next_w gap_threshold max_chars then
    sentences <- emit acc accum_text sentences ;;
    Ok ([], sentences)
  else Ok (acc, sentences).

Definition words_to_sentences (words : list Word.t) (gap_threshold : float)
    (max_chars : Z) : result (list Sentence.t) :=
  match words with
  | [] => Ok []
  | _ =>
      st <- for_each (loop_body words gap_threshold max_chars)
              (enumerate 0 words) ([], []) ;;
      let '(acc, sentences) := st in
      match acc with
      | [] => Ok sentences
      | _ => emit acc (join_text acc) sentences
      end
  end.

End PipelineNoFfmpeg.

(* ------------------------------------------------------------------ *)
(** ** What the specification says, where it is compared with the code *)

Module Spec.

(** The bounds as the specification writes them:
    [start_ms = max(round(start_time*1000), 0)] and
    [end_ms = max(round(end_time*1000), start_ms + 1)]. *)
Definition ms_bounds (sent : Sentence.t) : result (Z * Z) :=
  a <- round (Sentence.start_time sent * 1000)%float ;;
  let start_ms := Z.max a 0 in
  b <- round (Sentence.end_time sent * 1000)%float ;;
  let end_ms := Z.max b (start_ms + 1) in
  Ok (start_ms, end_ms).

End Spec.

(* ------------------------------------------------------------------ *)
(** ** The accumulators of a run *)

Section Accumulators.

Variables (gap_threshold : float) (max_chars : Z).

(** The accumulators the loop closes on the words [rest] when it
    starts with [acc], and the accumulator it is left with. *)
Fixpoint scan (acc rest : list Word.t) : list (list Word.t) * list Word.t :=
  match rest with
  | [] => ([], acc)
  | w :: rest' =>
      let acc' := acc ++ [w] in
      if Pipeline.need_close (Pipeline.join_text acc') w (hd_error rest')
           gap_threshold max_chars
      then let '(closed, open) := scan [] rest' in (acc' :: closed, open)
      else scan acc' rest'
  end.

(** All the accumulators of a run, the one flushed at the end last. *)
Definition accumulators (words : list Word.t) : list (list Word.t) :=
  let '(closed, open) := scan [] words in
  closed ++ match open with [] => [] | _ => [open] end.

(** The state after [i] iterations of the loop of
    [words_to_sentences]. *)
Definition state_after (words : list Word.t) (i : nat)
  : result (list Word.t * list Sentence.t) :=
  for_each (Pipeline.loop_body words gap_threshold max_chars)
    (firstn i (enumerate 0 words)) ([], []).

End Accumulators.

(** Is the text of an accumulator kept, that is, not blank once
    normalised? *)
Definition kept (acc : list Word.t) : bool :=
  match strip (Pipeline.normalize_spacing (Pipeline.join_text acc)) with
  | [] => false
  | _ => true
  end.

(** The sentence an accumulator [first :: more] is emitted as. *)
Definition sentence_of (first : Word.t) (more : list Word.t) : Sentence.t :=
  Sentence.mk (Pipeline.normalize_spacing (Pipeline.join_text (first :: more)))
    (Word.start first) (Word.end_ (last more first)).

(** The sentences of a list of accumulators: one for each accumulator
    that is kept. *)
Definition sentences_of (accs : list (list Word.t)) : list Sentence.t :=
  flat_map
    (fun acc =>
       match acc with
       | first :: more => if kept acc then [sentence_of first more] else []
       | [] => []
       end)
    accs.

(* ------------------------------------------------------------------ *)
(** ** Notation for concrete words *)

Definition w (s : string) (a b : float) : Word.t := Word.mk (lit s) a b.
Arguments w s%_string a%_float b%_float.
Arguments lit s%_string.
Arguments Sentence.mk text start_time%_float end_time%_float.
Arguments Pipeline.words_to_sentences words gap_threshold%_float max_chars%_Z.

(* ------------------------------------------------------------------ *)
(** ** The vocabulary of the statements *)

(** *** The closing rules *)

(** The three rules, as the loop decides them on [accum_text], the word
    [w] just appended and the word [next_w] after it.  The first: the
    text ends in one of [. ! ? 。 ！ ？ …]. *)
Definition punctuation_rule (accum_text : str) : Prop :=
  exists pre c, accum_text = pre ++ [c]
                /\ In c [46; 33; 63; 12290; 65281; 65311; 8230]%N.

(** The second: there is a next word, and it starts at least
    [gap_threshold] after [w] ends. *)
Definition gap_rule (w : Word.t) (next_w : option Word.t)
    (gap_threshold : float) : Prop :=
  exists next, next_w = Some next
               /\ (gap_threshold <=? Word.start next - Word.end_ w)%float = true.

(** The third: the text has at least [max_chars] characters. *)
Definition length_rule (accum_text : str) (max_chars : Z) : Prop :=
  (max_chars <= Z.of_nat (length accum_text))%Z.

(** *** Timing and order *)

(** The timing the specification asks of a word: [start <= end]. *)
Definition well_timed (w : Word.t) : Prop :=
  (Word.start w <=? Word.end_ w)%float = true.

(** [a] does not start after [b]; a sentence does not end before it
    starts; a sentence does not start after another. *)
Definition starts_before (a b : Word.t) : Prop :=
  (Word.start a <=? Word.start b)%float = true.

Definition sentence_timed (s : Sentence.t) : Prop :=
  (Sentence.start_time s <=? Sentence.end_time s)%float = true.

Definition sentence_starts_before (a b : Sentence.t) : Prop :=
  (Sentence.start_time a <=? Sentence.start_time b)%float = true.

(** A word neither of whose times is a NaN. *)
Definition no_nan (w : Word.t) : Prop :=
  is_nan (Word.start w) = false /\ is_nan (Word.end_ w) = false.

(** A float that is an infinity; a float that is a NaN. *)
Definition infinite (x : float) : Prop :=
  match Prim2SF x with
  | S754_infinity _ => True
  | _ => False
  end.

Definition not_a_number (x : float) : Prop :=
  match Prim2SF x with
  | S754_nan => True
  | _ => False
  end.

(** A float that is neither an infinity nor a NaN. *)
Definition finite (x : float) : Prop :=
  match Prim2SF x with
  | S754_zero _ | S754_finite _ _ _ => True
  | S754_infinity _ | S754_nan => False
  end.

(** *** Sentences and their accumulators *)

(** The sentence [s] is the one emitted for the accumulator [acc]: its
    text is the normalised concatenation of the texts of [acc], its
    start the start of the first word, its end the end of the last. *)
Definition emitted_for (acc : list Word.t) (s : Sentence.t) : Prop :=
  exists first more,
    acc = first :: more
    /\ Sentence.text s
       = Pipeline.normalize_spacing (Pipeline.join_text acc)
    /\ Sentence.start_time s = Word.start first
    /\ Sentence.end_time s = Word.end_ (last more first).

(** *** Normalised text *)

(** The first character, if any, is not whitespace. *)
Definition starts_clean (s : str) : bool :=
  match s with
  | c :: _ => negb (isspace c)
  | [] => true
  end.

(** Every whitespace character is one U+0020 and is followed by a
    character that is neither whitespace nor in [cls]; a whitespace
    character may end the text only when [at_end] is set. *)
Fixpoint spaced (at_end : bool) (cls : list N) (s : str) : bool :=
  match s with
  | [] => true
  | c :: rest =>
      (if isspace c then
         (c =? 32)%N
         && match rest with
            | d :: _ => negb (isspace d) && negb (contains cls d)
            | [] => at_end
            end
       else true)
      && spaced at_end cls rest
  end.

(** No whitespace at either end, no run of whitespace other than one
    U+0020, and no whitespace in front of [。 ！ ？ …]. *)
Definition normalized (t : str) : Prop :=
  strip t = t
  /\ forall i c,
       nth_error t i = Some c -> isspace c = true ->
       c = 32%N
       /\ exists d, nth_error t (S i) = Some d
                    /\ isspace d = false
                    /\ ~ In d [12290; 65281; 65311; 8230]%N.

(** *** Artifacts and the manifest *)

(** [k] zeros in front of a decimal number. *)
Fixpoint zeros_then (k : nat) (d : uint) : uint :=
  match k with
  | 0 => d
  | S k => D0 (zeros_then k d)
  end.

(** Is the operation the writing of the manifest? *)
Definition is_manifest (ev : event) : bool :=
  match ev with
  | WriteJson _ _ => true
  | _ => false
  end.

(** [ev] is the export of the clip of the sentence [snd isent] under the
    ordinal [fst isent]. *)
Definition clip_of (seg_dir : str) (isent : nat * Sentence.t) (ev : event)
  : Prop :=
  exists start_ms end_ms,
    Pipeline.ms_bounds (snd isent) = Ok (start_ms, end_ms)
    /\ ev = ExportMp3 (seg_dir ++ lit "/" ++ Pipeline.filename (fst isent))
              start_ms end_ms.

(** The entry of the manifest for the sentence [snd isent] under the
    ordinal [fst isent]. *)
Definition record_of (round3 : float -> float) (isent : nat * Sentence.t)
  : ClipRecord.t :=
  ClipRecord.mk (Sentence.text (snd isent))
    (round3 (Sentence.start_time (snd isent)))
    (round3 (Sentence.end_time (snd isent)))
    (lit "segments/" ++ Pipeline.filename (fst isent)).

(** Each operation of [evs], tried in the world [wd] after the
    operations before it, did not raise. *)
Definition all_performed (fails : world -> event -> option exn) (wd : world)
    (evs : list event) : Prop :=
  forall pre ev post, evs = pre ++ ev :: post -> fails (wd ++ pre) ev = None.

(** *** Inputs of the concrete runs *)

Definition hi_words : list Word.t := [w "Hi" 0 0.5; w "." 0.5 0.5; w " x" 0.5 1].

Definition two_sentences : list Sentence.t :=
  [Sentence.mk (lit "Hi.") 0 0.5; Sentence.mk (lit "x y") 0.5 1].

Definition never_fails : world -> event -> option exn := fun _ _ => None.

(** The export of the second clip raises. *)
Definition second_clip_fails : world -> event -> option exn :=
  fun wd ev =>
    match ev with
    | ExportMp3 _ _ _ => if (length wd =? 2)%nat then Some IOError else None
    | _ => None
    end.

(* ------------------------------------------------------------------ *)
(** ** scripts/pipeline.py: the loop of [transcribe] *)

(** A token of the recogniser: its text and its times, which may be
    missing. *)
Module Token.
Record t := mk { word : str; start : option float; end_ : option float }.
End Token.

(** A segment of the recogniser; [words] is empty when the recogniser
    gives no tokens for the segment ([None] or an empty list). *)
Module Segment.
Record t :=
  mk { start : option float; end_ : option float; text : str;
       words : list Token.t }.
End Segment.

(** [dict(start=..., end=..., text=...)] *)
Module SegObj.
Record t := mk { start : option float; end_ : option float; text : str }.
End SegObj.

Module Transcription.

(** The float of a length: [dur / max(len(chars), 1)] divides by it.
    (Lengths stay far below [2^63].) *)
Definition float_of_len (n : nat) : float :=
  PrimFloat.of_uint63 (Uint63.of_Z (Z.of_nat n)).

(** One iteration of [for w in seg.words]. *)
Definition token_step (words : list Word.t) (tk : Token.t) : list Word.t :=
  match Token.start tk, Token.end_ tk with
  | Some s, Some e => words ++ [Word.mk (Token.word tk) s e]
  | _, _ => words
  end.

(** One iteration of [for ch in chars] on [(words, t)]. *)
Definition char_step (per_char : float) (st : list Word.t * float) (ch : N)
  : list Word.t * float :=
  let '(words, t) := st in
  (words ++ [Word.mk [ch] t (t + per_char)%float], (t + per_char)%float).

(** One iteration of [for seg in segments] on [(words, seg_objs)]. *)
Definition segment_step (st : list Word.t * list SegObj.t) (seg : Segment.t)
  : list Word.t * list SegObj.t :=
  let '(words, seg_objs) := st in
  let seg_obj :=
    SegObj.mk (Segment.start seg) (Segment.end_ seg)
      (strip (Segment.text seg)) in
  let seg_objs := seg_objs ++ [seg_obj] in
  match Segment.words seg with
  | _ :: _ => (fold_left token_step (Segment.words seg) words, seg_objs)
  | [] =>
      let chars := strip (Segment.text seg) in
      match chars with
      | [] => (words, seg_objs)
      | _ :: _ =>
          let dur :=
            match SegObj.start seg_obj, SegObj.end_ seg_obj with
            | Some s, Some e => (e - s)%float
            | _, _ => 0%float
            end in
          match SegObj.start seg_obj with
          | None => (words, seg_objs)
          | Some t =>
              if (dur <=? 0)%float then (words, seg_objs)
              else
                let per_char :=
                  (dur / float_of_len (Nat.max (length chars) 1))%float in
                (fst (fold_left (char_step per_char) chars (words, t)),
                 seg_objs)
          end
      end
  end.

(** The loop of [transcribe] over what the recogniser yields. *)
Definition transcribe_loop (segments : list Segment.t)
  : list Word.t * list SegObj.t :=
  fold_left segment_step segments ([], []).

(** [transcribe], from the segments of the recogniser on: the loop,
    then the sort (which stands for [list.sort] when the words of the
    loop are in order already or have no NaN among their times). *)
Definition transcribe (segments : list Segment.t)
  : list Word.t * list SegObj.t :=
  let '(words, seg_objs) := transcribe_loop segments in
  (Pipeline.sort_words words, seg_objs).

End Transcription.

(* ------------------------------------------------------------------ *)
(** ** scripts/pipeline_no_ffmpeg.py: the manifest without the clips *)

(** An entry of that manifest: the entry of [pipeline.py] and a note. *)
Module InfoRecord.
Record t :=
  mk { text : str; start_time : float; end_time : float; path : str;
       note : str }.
End InfoRecord.

Module PipelineNoFfmpegOutput.

Section Info.

Variable fails : world -> event -> option exn.

(** [round(x, 3)] *)
Variable round3 : float -> float.

Definition NOTE : str :=
  lit "Audio segment needs to be created with FFmpeg. Install FFmpeg and run the full pipeline.".

(** One iteration of [for i, sent in enumerate(sentences, start=1)]. *)
Definition info_step (results : list InfoRecord.t)
    (isent : nat * Sentence.t) : list InfoRecord.t :=
  let '(i, sent) := isent in
  let filename := Pipeline.filename i in
  results ++
  [InfoRecord.mk (Sentence.text sent)
     (round3 (Sentence.start_time sent))
     (round3 (Sentence.end_time sent))
     (lit "segments/" ++ filename)
     NOTE].

Definition create_audio_segments_info (sentences : list Sentence.t)
    (out_dir : str) : io (list InfoRecord.t) :=
  let seg_dir := out_dir ++ lit "/segments" in
  _ <~ Pipeline.perform fails (Mkdir seg_dir) ;;
  io_ret (fold_left info_step (enumerate 1 sentences) []).

End Info.

End PipelineNoFfmpegOutput.

(* ------------------------------------------------------------------ *)
(** ** viewer/app.py: the check of an uploaded name *)

Module Viewer.

(** [{'mp3', 'wav', 'm4a', 'ogg', 'flac'}] *)
Definition ALLOWED_EXTENSIONS : list str :=
  [lit "mp3"; lit "wav"; lit "m4a"; lit "ogg"; lit "flac"].

(** [s] cut at its last ['.'], if it has one. *)
Fixpoint cut_last_dot (s : str) : option (str * str) :=
  match s with
  | [] => None
  | c :: rest =>
      match cut_last_dot rest with
      | Some (a, b) => Some (c :: a, b)
      | None => if (c =? 46)%N then Some ([], rest) else None
      end
  end.

(** [s.rsplit('.', 1)] *)
Definition rsplit_dot (s : str) : list str :=
  match cut_last_dot s with
  | Some (a, b) => [a; b]
  | None => [s]
  end.

(** [c.lower()] for an ASCII character. *)
Definition ascii_lower (c : N) : N :=
  if ((65 <=? c) && (c <=? 90))%N then (c + 32)%N else c.

(** [x in xs] for strings. *)
Definition str_in (x : str) (xs : list str) : bool :=
  existsb (fun y => if list_eq_dec N.eq_dec x y then true else false) xs.

Section Lower.

(** [s.lower()] for a string with a character outside ASCII. *)
Variable unicode_lower : str -> str.

(** [s.lower()] *)
Definition lower (s : str) : str :=
  if forallb (fun c => (c <? 128)%N) s then map ascii_lower s
  else unicode_lower s.

Definition allowed_file (filename : str) : result bool :=
  if contains filename 46%N then
    ext <- getitem (rsplit_dot filename) 1 ;;
    Ok (str_in (lower ext) ALLOWED_EXTENSIONS)
  else Ok false.

End Lower.

End Viewer.

(* ------------------------------------------------------------------ *)
(** ** The vocabulary of the further properties *)

Definition not_space (c : N) : bool := negb (isspace c).

(** Inside the accumulator [acc] no word but the last is one at which
    the loop closes. *)
Definition open_inside (gap_threshold : float) (max_chars : Z)
    (acc : list Word.t) : Prop :=
  forall pre x y post,
    acc = pre ++ x :: y :: post ->
    Pipeline.need_close (Pipeline.join_text (pre ++ [x])) x (Some y)
      gap_threshold max_chars = false.

(** A word whose text ends in one of [. ! ? 。 ！ ？ …]. *)
Definition ends_sentence (x : Word.t) : Prop :=
  exists t c, Word.text x = t ++ [c]
              /\ In c [46; 33; 63; 12290; 65281; 65311; 8230]%N.

(** The word of a token that has both times. *)
Definition token_word (tk : Token.t) : list Word.t :=
  match Token.start tk, Token.end_ tk with
  | Some s, Some e => [Word.mk (Token.word tk) s e]
  | _, _ => []
  end.

(** One word for each character, each starting where the one before
    ends. *)
Fixpoint spread (t per_char : float) (chars : str) : list Word.t :=
  match chars with
  | [] => []
  | ch :: rest =>
      Word.mk [ch] t (t + per_char)%float
      :: spread (t + per_char)%float per_char rest
  end.

(** An entry of the manifest of [pipeline_no_ffmpeg.py] without its
    note. *)
Definition without_note (r : InfoRecord.t) : ClipRecord.t :=
  ClipRecord.mk (InfoRecord.text r) (InfoRecord.start_time r)
    (InfoRecord.end_time r) (InfoRecord.path r).

Definition one_token_segment : Segment.t :=
  Segment.mk (Some 0%float) (Some 1%float) (lit "Hi there")
    [Token.mk (lit "Hi") (Some 0%float) (Some 0.5%float);
     Token.mk (lit " there") None (Some 1%float)].

Definition tokenless_segment : Segment.t :=
  Segment.mk (Some 1%float) (Some 2.5%float) (lit " abc ") [].

(* ------------------------------------------------------------------ *)
(** ** Concrete runs, checked by evaluation *)

Example gap_fallback :
  Pipeline.words_to_sentences [w "He" 0 0.5; w "llo" 3 3.25] 0.75 80
  = Ok [Sentence.mk (lit "He") 0 0.5; Sentence.mk (lit "llo") 3 3.25].
Proof. vm_compute. reflexivity. Qed.

Example punct_priority :
  Pipeline.words_to_sentences [w "Hi" 0 0.5; w "." 0.5 0.5; w " x  y " 0.5 1] 5 80
  = Ok [Sentence.mk (lit "Hi.") 0 0.5; Sentence.mk (lit "x y") 0.5 1].
Proof. vm_compute. reflexivity. Qed.

Example filename_7 : Pipeline.filename 7 = lit "segment_007.mp3".
Proof. reflexivity. Qed.

Example filename_1000 : Pipeline.filename 1000 = lit "segment_1000.mp3".
Proof. reflexivity. Qed.

Example sort_words_run :
  Pipeline.sort_words [w "b" 1 2; w "a" 0 0.5; w "c" 1 1.5]
  = [w "a" 0 0.5; w "c" 1 1.5; w "b" 1 2].
Proof. vm_compute. reflexivity. Qed.

Example bounds_run :
  Pipeline.ms_bounds (Sentence.mk (lit "x") 1.0009765625 1.0009765625)
  = Ok (1000, 1001)%Z
  /\ Spec.ms_bounds (Sentence.mk (lit "x") 1.0009765625 1.0009765625)
     = Ok (1001, 1002)%Z.
Proof. split; vm_compute; reflexivity. Qed.


(* ------------------------------------------------------------------ *)
(** ** Lists, indices and loops *)

Lemma for_each_app {S X} (body : S -> X -> result S) (xs ys : list X) (st : S) :
  for_each body (xs ++ ys) st = bind (for_each body xs st) (for_each body ys).
Proof.
  revert st; induction xs as [|x xs IH]; intros st; simpl; [reflexivity|].
  destruct (body st x) as [st'|e]; simpl; [apply IH | reflexivity].
Qed.

Lemma getitem_first {X} (x : X) (xs : list X) : getitem (x :: xs) 0 = Ok x.
Proof.
  unfold getitem. cbn [length].
  replace (0 <? 0)%Z with false by reflexivity.
  replace ((0 <=? 0)%Z && (0 <? Z.of_nat (S (length xs)))%Z) with true.
  - reflexivity.
  - symmetry. apply andb_true_intro. split; [apply Z.leb_le | apply Z.ltb_lt]; lia.
Qed.

Lemma last_cons {X} (x y : X) (xs : list X) :
  last (y :: xs) x = last xs y.
Proof.
  revert x y; induction xs as [|z xs IH]; intros x y; [reflexivity|].
  change (last (y :: z :: xs) x) with (last (z :: xs) x).
  rewrite IH. symmetry. apply IH.
Qed.

Lemma nth_error_last {X} (x : X) (xs : list X) :
  nth_error (x :: xs) (length xs) = Some (last xs x).
Proof.
  revert x; induction xs as [|y xs IH]; intros x; [reflexivity|].
  cbn [length nth_error]. rewrite IH, last_cons. reflexivity.
Qed.

Lemma getitem_last {X} (x : X) (xs : list X) :
  getitem (x :: xs) (-1) = Ok (last xs x).
Proof.
  unfold getitem. cbn [length].
  replace (-1 <? 0)%Z with true by reflexivity.
  replace (-1 + Z.of_nat (S (length xs)))%Z with (Z.of_nat (length xs)) by lia.
  replace ((0 <=? Z.of_nat (length xs))%Z
           && (Z.of_nat (length xs) <? Z.of_nat (S (length xs)))%Z) with true.
  - rewrite Nat2Z.id, nth_error_last. reflexivity.
  - symmetry. apply andb_true_intro. split; [apply Z.leb_le | apply Z.ltb_lt]; lia.
Qed.

Lemma guarded_nth_error {X} (xs : list X) (n : nat) :
  (if (n <? length xs)%nat then nth_error xs n else None) = nth_error xs n.
Proof.
  destruct (Nat.ltb_spec n (length xs)) as [H|H]; [reflexivity|].
  symmetry. apply nth_error_None. exact H.
Qed.

Lemma nth_error_next {X} (pre : list X) (x : X) (rest : list X) :
  nth_error (pre ++ x :: rest) (length pre + 1) = hd_error rest.
Proof.
  rewrite nth_error_app2 by lia.
  replace (length pre + 1 - length pre) with 1 by lia.
  destruct rest; reflexivity.
Qed.

Lemma snoc_not_nil {X} (xs : list X) (x : X) : xs ++ [x] <> [].
Proof. destruct xs; discriminate. Qed.

(* ------------------------------------------------------------------ *)
(** ** The loop of the segmenter and its accumulators *)

Section Segmenter.

Variables (gap_threshold : float) (max_chars : Z).

Lemma emit_accumulator (acc : list Word.t) (sentences : list Sentence.t) :
  acc <> [] ->
  Pipeline.emit acc (Pipeline.join_text acc) sentences
  = Ok (sentences ++ sentences_of [acc]).
Proof.
  destruct acc as [|first more]; [congruence|]. intros _.
  unfold Pipeline.emit. rewrite getitem_first, getitem_last. cbn [bind].
  unfold sentences_of, kept, sentence_of. cbn [flat_map].
  destruct (strip _); cbn [app]; rewrite ?app_nil_r; reflexivity.
Qed.

Lemma sentences_of_app (xs ys : list (list Word.t)) :
  sentences_of (xs ++ ys) = sentences_of xs ++ sentences_of ys.
Proof. apply flat_map_app. Qed.

Lemma sentences_of_cons (acc : list Word.t) (accs : list (list Word.t)) :
  sentences_of (acc :: accs) = sentences_of [acc] ++ sentences_of accs.
Proof. apply (sentences_of_app [acc] accs). Qed.

(** The loop, run on the words [rest] that follow [pre], closes the
    accumulators of [scan]. *)
Lemma loop_scan (rest pre acc : list Word.t) (sentences : list Sentence.t) :
  for_each (Pipeline.loop_body (pre ++ rest) gap_threshold max_chars)
    (combine (seq (length pre) (length rest)) rest) (acc, sentences)
  = Ok (snd (scan gap_threshold max_chars acc rest),
        sentences ++ sentences_of (fst (scan gap_threshold max_chars acc rest))).
Proof.
  revert pre acc sentences.
  induction rest as [|w0 rest IH]; intros pre acc sentences.
  - simpl. rewrite app_nil_r. reflexivity.
  - cbn [length seq combine for_each scan].
    unfold Pipeline.loop_body at 1.
    rewrite guarded_nth_error, nth_error_next.
    specialize (IH (pre ++ [w0])).
    rewrite <- app_assoc in IH. cbn [app] in IH.
    rewrite length_app in IH. cbn [length] in IH.
    replace (length pre + 1) with (S (length pre)) in IH by lia.
    destruct (Pipeline.need_close _ _ _ _ _).
    + rewrite emit_accumulator by apply snoc_not_nil. cbn [bind].
      rewrite IH.
      destruct (scan gap_threshold max_chars [] rest) as [closed open].
      cbn [fst snd]. rewrite (sentences_of_cons (acc ++ [w0]) closed).
      rewrite app_assoc. reflexivity.
    + cbn [bind]. apply IH.
Qed.

(** The sentences returned are those of the accumulators, in order. *)
Lemma words_to_sentences_accumulators (words : list Word.t) :
  Pipeline.words_to_sentences words gap_threshold max_chars
  = Ok (sentences_of (accumulators gap_threshold max_chars words)).
Proof.
  destruct words as [|w0 rest]; [reflexivity|].
  unfold Pipeline.words_to_sentences, enumerate, accumulators.
  pose proof (loop_scan (w0 :: rest) [] [] []) as H.
  change (@nil Word.t ++ w0 :: rest) with (w0 :: rest) in H.
  change (length (@nil Word.t)) with 0 in H.
  rewrite H. clear H. cbn [bind app].
  destruct (scan gap_threshold max_chars [] (w0 :: rest)) as [closed open].
  cbn [fst snd]. rewrite sentences_of_app.
  destruct open as [|o open].
  - cbn [sentences_of flat_map]. rewrite app_nil_r. reflexivity.
  - rewrite emit_accumulator by discriminate. reflexivity.
Qed.

Lemma scan_concat (rest acc : list Word.t) :
  concat (fst (scan gap_threshold max_chars acc rest))
  ++ snd (scan gap_threshold max_chars acc rest) = acc ++ rest.
Proof.
  revert acc; induction rest as [|w0 rest IH]; intros acc.
  - simpl. rewrite app_nil_r. reflexivity.
  - cbn [scan]. destruct (Pipeline.need_close _ _ _ _ _).
    + specialize (IH []).
      destruct (scan gap_threshold max_chars [] rest) as [closed open].
      cbn [fst snd concat] in *. rewrite <- app_assoc, IH, <- app_assoc.
      reflexivity.
    + rewrite IH, <- app_assoc. reflexivity.
Qed.

Lemma scan_nonempty (rest acc : list Word.t) :
  Forall (fun a => a <> []) (fst (scan gap_threshold max_chars acc rest)).
Proof.
  revert acc; induction rest as [|w0 rest IH]; intros acc.
  - constructor.
  - cbn [scan]. destruct (Pipeline.need_close _ _ _ _ _).
    + specialize (IH []).
      destruct (scan gap_threshold max_chars [] rest) as [closed open].
      cbn [fst] in *. constructor; [apply snoc_not_nil | exact IH].
    + apply IH.
Qed.

Lemma accumulators_concat (words : list Word.t) :
  concat (accumulators gap_threshold max_chars words) = words.
Proof.
  unfold accumulators. pose proof (scan_concat words []) as H.
  destruct (scan gap_threshold max_chars [] words) as [closed open].
  cbn [fst snd app] in H. rewrite concat_app.
  destruct open; cbn [concat]; rewrite ?app_nil_r in *; exact H.
Qed.

Lemma accumulators_nonempty (words : list Word.t) :
  Forall (fun a => a <> []) (accumulators gap_threshold max_chars words).
Proof.
  unfold accumulators. pose proof (scan_nonempty words []) as H.
  destruct (scan gap_threshold max_chars [] words) as [closed open].
  cbn [fst] in H. apply Forall_app. split; [exact H|].
  destruct open; constructor; [discriminate | constructor].
Qed.

End Segmenter.

(* ------------------------------------------------------------------ *)
(** ** The closing rule *)

Lemma firstn_succ {X} (xs : list X) (i : nat) (x : X) :
  nth_error xs i = Some x -> firstn (S i) xs = firstn i xs ++ [x].
Proof.
  revert i; induction xs as [|y xs IH]; intros [|i] H; try discriminate.
  - injection H as ->. reflexivity.
  - cbn [firstn app]. f_equal. apply IH. exact H.
Qed.

Lemma nth_error_enumerate {X} (xs : list X) (from i : nat) :
  nth_error (enumerate from xs) i
  = option_map (fun x => (from + i, x)) (nth_error xs i).
Proof.
  unfold enumerate. revert from i.
  induction xs as [|y xs IH]; intros from [|i]; try reflexivity.
  - cbn. rewrite Nat.add_0_r. reflexivity.
  - cbn [length seq combine nth_error]. rewrite IH.
    replace (S from + i) with (from + S i) by lia. reflexivity.
Qed.

Lemma last_char_snoc (s : str) (c : N) : last_char (s ++ [c]) = Some c.
Proof. unfold last_char. rewrite rev_app_distr. reflexivity. Qed.

Lemma last_char_some (s : str) (c : N) :
  last_char s = Some c <-> exists pre, s = pre ++ [c].
Proof.
  split.
  - unfold last_char. intros H.
    destruct (rev s) as [|d r] eqn:E; [discriminate|]. injection H as ->.
    exists (rev r). rewrite <- (rev_involutive s), E. reflexivity.
  - intros [pre ->]. apply last_char_snoc.
Qed.

Lemma contains_In (cs : list N) (c : N) : contains cs c = true <-> In c cs.
Proof.
  unfold contains. rewrite existsb_exists. split.
  - intros [d [Hd E]]. apply N.eqb_eq in E. subst. exact Hd.
  - intros H. exists c. split; [exact H | apply N.eqb_refl].
Qed.

Lemma punctuation_rule_iff (accum_text : str) :
  punctuation_rule accum_text
  <-> match last_char accum_text with
      | Some c => contains Pipeline.SENTENCE_END_CHARS c
      | None => false
      end = true.
Proof.
  unfold punctuation_rule. split.
  - intros [pre [c [-> H]]]. rewrite last_char_snoc.
    apply contains_In. exact H.
  - destruct (last_char accum_text) as [c|] eqn:L; [|discriminate].
    intros H. apply last_char_some in L. destruct L as [pre ->].
    exists pre, c. split; [reflexivity | apply contains_In; exact H].
Qed.

Lemma gap_rule_iff (w : Word.t) (next_w : option Word.t) (gap_threshold : float) :
  gap_rule w next_w gap_threshold
  <-> match next_w with
      | Some next => (gap_threshold <=? Word.start next - Word.end_ w)%float
      | None => false
      end = true.
Proof.
  unfold gap_rule. split.
  - intros [next [-> H]]. exact H.
  - destruct next_w as [next|]; [|discriminate].
    intros H. exists next. split; [reflexivity | exact H].
Qed.

Lemma bool_decides (b : bool) (P : Prop) : (P <-> b = true) -> P \/ ~ P.
Proof. intros H. destruct b; [left | right]; rewrite H; congruence. Qed.

Lemma need_close_rules (accum_text : str) (w : Word.t) (next_w : option Word.t)
    (gap_threshold : float) (max_chars : Z) :
  Pipeline.need_close accum_text w next_w gap_threshold max_chars = true
  <-> punctuation_rule accum_text
      \/ gap_rule w next_w gap_threshold
      \/ length_rule accum_text max_chars.
Proof.
  rewrite punctuation_rule_iff, gap_rule_iff.
  unfold Pipeline.need_close, Pipeline.should_close_sentence, length_rule.
  rewrite <- Z.leb_le.
  destruct (match last_char accum_text with
            | Some c => contains Pipeline.SENTENCE_END_CHARS c
            | None => false
            end); [tauto|].
  destruct next_w as [next|].
  - destruct (gap_threshold <=? Word.start next - Word.end_ w)%float; [tauto|].
    destruct (max_chars <=? Z.of_nat (length accum_text))%Z; [tauto|].
    split; [discriminate | intros [H | [H | H]]; discriminate].
  - destruct (max_chars <=? Z.of_nat (length accum_text))%Z; [tauto|].
    split; [discriminate | intros [H | [H | H]]; discriminate].
Qed.

Lemma state_after_succ (gap_threshold : float) (max_chars : Z)
    (words : list Word.t) (i : nat) (w0 : Word.t)
    (st : list Word.t * list Sentence.t) :
  nth_error words i = Some w0 ->
  state_after gap_threshold max_chars words i = Ok st ->
  state_after gap_threshold max_chars words (S i)
  = Pipeline.loop_body words gap_threshold max_chars st (i, w0).
Proof.
  intros Hw Hst. unfold state_after in *.
  rewrite (firstn_succ (enumerate 0 words) i (i, w0)).
  - rewrite for_each_app, Hst. cbn [bind for_each].
    destruct (Pipeline.loop_body _ _ _ _ _); reflexivity.
  - rewrite nth_error_enumerate, Hw. reflexivity.
Qed.

(** The function is the loop run to its end, then the flush. *)
Lemma words_to_sentences_state_after (gap_threshold : float) (max_chars : Z)
    (words : list Word.t) :
  words <> [] ->
  Pipeline.words_to_sentences words gap_threshold max_chars
  = bind (state_after gap_threshold max_chars words (length words))
      (fun st =>
         match fst st with
         | [] => Ok (snd st)
         | _ => Pipeline.emit (fst st) (Pipeline.join_text (fst st)) (snd st)
         end).
Proof.
  destruct words as [|w0 rest]; [congruence|]. intros _.
  unfold Pipeline.words_to_sentences, state_after.
  rewrite firstn_all2.
  - destruct (for_each _ _ _) as [[acc sentences]|e]; reflexivity.
  - unfold enumerate. rewrite length_combine, length_seq. lia.
Qed.

Lemma firstn_succ_none {X} (xs : list X) (i : nat) :
  nth_error xs i = None -> firstn (S i) xs = firstn i xs.
Proof.
  intros H. apply nth_error_None in H.
  rewrite !firstn_all2 by lia. reflexivity.
Qed.

(** The loop reaches every iteration: no iteration raises. *)
Lemma state_after_defined (gap_threshold : float) (max_chars : Z)
    (words : list Word.t) (i : nat) :
  exists acc sentences,
    state_after gap_threshold max_chars words i = Ok (acc, sentences).
Proof.
  induction i as [|i [acc [sentences IH]]].
  - exists [], []. reflexivity.
  - destruct (nth_error words i) as [w0|] eqn:Hw.
    + rewrite (state_after_succ _ _ _ _ _ _ Hw IH).
      unfold Pipeline.loop_body.
      destruct (Pipeline.need_close _ _ _ _ _).
      * rewrite emit_accumulator by apply snoc_not_nil.
        eexists. eexists. reflexivity.
      * eexists. eexists. reflexivity.
    + exists acc, sentences. unfold state_after in *.
      rewrite firstn_succ_none; [exact IH|].
      rewrite nth_error_enumerate, Hw. reflexivity.
Qed.

(** C1. After the loop has appended the word [w0] at position [i] to the
    accumulator [acc], it closes the accumulator (emits it and goes on
    with the empty one) exactly when the last character of the
    concatenated text is one of [. ! ? 。 ！ ？ …], or else the next
    word exists and starts at least [gap_threshold] after [w0] ends, or
    else the text has at least [max_chars] characters; otherwise it
    keeps the accumulator and the sentences as they are.  The
    punctuation rule alone closes, whatever the gap and the length. *)
Theorem closing_rule (words : list Word.t) (gap_threshold : float)
    (max_chars : Z) (i : nat) (w0 : Word.t) (acc : list Word.t)
    (sentences : list Sentence.t) :
  nth_error words i = Some w0 ->
  state_after gap_threshold max_chars words i = Ok (acc, sentences) ->
  let accum_text := Pipeline.join_text (acc ++ [w0]) in
  let next_w := nth_error words (i + 1) in
  let closes :=
    punctuation_rule accum_text
    \/ (~ punctuation_rule accum_text /\ gap_rule w0 next_w gap_threshold)
    \/ (~ punctuation_rule accum_text /\ ~ gap_rule w0 next_w gap_threshold
        /\ length_rule accum_text max_chars) in
  (closes ->
   exists sentences',
     Pipeline.emit (acc ++ [w0]) accum_text sentences = Ok sentences'
     /\ state_after gap_threshold max_chars words (S i) = Ok ([], sentences'))
  /\ (~ closes ->
      state_after gap_threshold max_chars words (S i)
      = Ok (acc ++ [w0], sentences))
  /\ (punctuation_rule accum_text -> closes).
Proof.
  intros Hw Hst accum_text next_w closes.
  rewrite (state_after_succ _ _ _ _ _ _ Hw Hst).
  unfold Pipeline.loop_body. rewrite guarded_nth_error.
  fold accum_text next_w.
  pose proof (need_close_rules accum_text w0 next_w gap_threshold max_chars) as R.
  assert (C : closes <-> punctuation_rule accum_text
                         \/ gap_rule w0 next_w gap_threshold
                         \/ length_rule accum_text max_chars).
  { unfold closes.
    destruct (bool_decides _ _ (punctuation_rule_iff accum_text));
      destruct (bool_decides _ _ (gap_rule_iff w0 next_w gap_threshold)); tauto. }
  split; [|split].
  - intros Hc. apply C, R in Hc. rewrite Hc.
    unfold accum_text. rewrite emit_accumulator by apply snoc_not_nil.
    eexists. split; reflexivity.
  - intros Hn.
    destruct (Pipeline.need_close accum_text w0 next_w gap_threshold max_chars)
      eqn:E; [|reflexivity].
    exfalso. apply Hn, C, R. reflexivity.
  - intros P. apply C. left. exact P.
Qed.

Lemma closing_rule_witness :
  exists sentences',
    Pipeline.emit [w "Hi" 0 0.5; w "." 0.5 0.5]
      (Pipeline.join_text [w "Hi" 0 0.5; w "." 0.5 0.5]) [] = Ok sentences'
    /\ state_after 5 80 hi_words 2 = Ok ([], sentences').
Proof.
  apply (closing_rule hi_words 5 80 1 (w "." 0.5 0.5) [w "Hi" 0 0.5] []);
    [reflexivity | reflexivity |].
  left. exists (lit "Hi"), 46%N. split; [reflexivity | simpl; tauto].
Defined.

(* ------------------------------------------------------------------ *)
(** ** Totality *)

(** C8. The segmenter returns normally: on the empty list it returns
    the empty list, and on every list of words with [start <= end] it
    returns a list of sentences; no [Raise] is reached. *)
Theorem words_to_sentences_total (words : list Word.t)
    (gap_threshold : float) (max_chars : Z) :
  Forall well_timed words ->
  (words = [] ->
   Pipeline.words_to_sentences words gap_threshold max_chars = Ok [])
  /\ exists sentences,
       Pipeline.words_to_sentences words gap_threshold max_chars = Ok sentences.
Proof.
  intros _. split.
  - intros ->. reflexivity.
  - eexists. apply words_to_sentences_accumulators.
Qed.

Lemma words_to_sentences_total_witness :
  (hi_words = [] -> Pipeline.words_to_sentences hi_words 5 80 = Ok [])
  /\ exists sentences, Pipeline.words_to_sentences hi_words 5 80 = Ok sentences.
Proof.
  apply (words_to_sentences_total hi_words 5 80).
  repeat constructor.
Defined.

(** C10. The segmenter of [pipeline_no_ffmpeg.py] returns what the
    segmenter of [pipeline.py] returns, and so do its helpers. *)
Theorem segmenters_agree (words : list Word.t) (gap_threshold : float)
    (max_chars : Z) :
  PipelineNoFfmpeg.words_to_sentences words gap_threshold max_chars
  = Pipeline.words_to_sentences words gap_threshold max_chars
  /\ (forall accum_text current_word next_word,
        PipelineNoFfmpeg.should_close_sentence accum_text current_word
          next_word gap_threshold
        = Pipeline.should_close_sentence accum_text current_word
            next_word gap_threshold)
  /\ (forall s, PipelineNoFfmpeg.normalize_spacing s
                = Pipeline.normalize_spacing s).
Proof. repeat split. Qed.

(* ------------------------------------------------------------------ *)
(** ** The order of floats *)

Section FloatOrder.

Local Open Scope float_scope.

Ltac by_compare_spec :=
  repeat match goal with
    | |- context [(?a ?= ?b)%Z] => destruct (Z.compare_spec a b)
    | |- context [(?a ?= ?b)%positive] => destruct (Pos.compare_spec a b)
    | H : context [(?a ?= ?b)%Z] |- _ => destruct (Z.compare_spec a b)
    | H : context [(?a ?= ?b)%positive] |- _ =>
        destruct (Pos.compare_spec a b)
    end.

Lemma SFcompare_swap (a b : spec_float) :
  SFcompare b a = option_map CompOpp (SFcompare a b).
Proof.
  destruct a as [[|]| [|] | | [|] m1 e1], b as [[|]| [|] | | [|] m2 e2];
    try reflexivity; cbn -[Z.compare Pos.compare];
    change (PosDef.Pos.compare_cont Eq) with Pos.compare;
    f_equal; rewrite (Z.compare_antisym e1 e2), (Pos.compare_antisym m1 m2);
    destruct (e1 ?= e2)%Z, (m1 ?= m2)%positive; reflexivity.
Qed.

Lemma SFleb_trans (a b c : spec_float) :
  SFleb a b = true -> SFleb b c = true -> SFleb a c = true.
Proof.
  unfold SFleb.
  destruct a as [[|]| [|] | | [|] m1 e1], b as [[|]| [|] | | [|] m2 e2],
    c as [[|]| [|] | | [|] m3 e3];
    try reflexivity; try discriminate; cbn -[Z.compare Pos.compare];
    change (PosDef.Pos.compare_cont Eq) with Pos.compare;
    try discriminate; try reflexivity;
    intros H1 H2; by_compare_spec; cbn in *;
    try reflexivity; try discriminate; try lia.
Qed.

Lemma SFcompare_some (a b : spec_float) :
  a <> S754_nan -> b <> S754_nan -> exists c, SFcompare a b = Some c.
Proof.
  destruct a, b; try congruence; intros _ _; eexists; reflexivity.
Qed.

Lemma SFleb_not_nan (a b : spec_float) :
  SFleb a b = true -> a <> S754_nan /\ b <> S754_nan.
Proof.
  unfold SFleb. destruct a, b; try discriminate; split; discriminate.
Qed.

(** [x <= y] and [y <= z] give [x <= z]. *)
Lemma leb_trans (x y z : float) :
  (x <=? y) = true -> (y <=? z) = true -> (x <=? z) = true.
Proof. rewrite !leb_spec. apply SFleb_trans. Qed.

(** [x < y] excludes [y < x]. *)
Lemma ltb_asym (x y : float) : (x <? y) = true -> (y <? x) = false.
Proof.
  rewrite !ltb_spec. unfold SFltb.
  rewrite (SFcompare_swap (Prim2SF x) (Prim2SF y)).
  destruct (SFcompare (Prim2SF x) (Prim2SF y)) as [[| |]|];
    try discriminate; reflexivity.
Qed.

(** [x == y] is [y == x]. *)
Lemma eqb_sym (x y : float) : (x =? y) = (y =? x).
Proof.
  rewrite !eqb_spec. unfold SFeqb.
  rewrite (SFcompare_swap (Prim2SF x) (Prim2SF y)).
  destruct (SFcompare (Prim2SF x) (Prim2SF y)) as [[| |]|]; reflexivity.
Qed.

(** A float that is below or above another is not a NaN, and two such
    floats are comparable. *)
Lemma not_ltb_leb (x x' y y' : float) :
  (x <=? x') = true -> (y <=? y') = true ->
  (y =? x) = true \/ (y <? x) = false -> (x <=? y) = true.
Proof.
  rewrite !leb_spec, ltb_spec, eqb_spec. unfold SFltb, SFeqb.
  intros Hx Hy.
  apply SFleb_not_nan in Hx, Hy. destruct Hx as [Hx _], Hy as [Hy _].
  destruct (SFcompare_some _ _ Hx Hy) as [c Hc].
  unfold SFleb. rewrite Hc, (SFcompare_swap (Prim2SF x) (Prim2SF y)), Hc.
  destruct c; cbn; intros [H | H]; try reflexivity; discriminate.
Qed.

Lemma tuple_lt_asym (a b : float * float) :
  tuple_lt a b = true -> tuple_lt b a = false.
Proof.
  unfold tuple_lt. rewrite (eqb_sym (fst b)), (eqb_sym (snd b)).
  destruct (fst a =? fst b); cbn [negb].
  - destruct (snd a =? snd b); cbn [negb]; [discriminate | apply ltb_asym].
  - apply ltb_asym.
Qed.

End FloatOrder.

(* ------------------------------------------------------------------ *)
(** ** Sorting *)

Section SortFacts.

Variables (X K : Type) (lt : K -> K -> bool) (key : X -> K).
Hypothesis lt_asym : forall a b, lt a b = true -> lt b a = false.

Lemma insert_head (x : X) (xs : list X) :
  exists y rest, insert lt key x xs = y :: rest
    /\ (y = x \/ (exists xs', xs = y :: xs') /\ lt (key y) (key x) = true).
Proof.
  destruct xs as [|y xs]; cbn [insert].
  - exists x, []. split; [reflexivity | left; reflexivity].
  - destruct (lt (key y) (key x)) eqn:E.
    + exists y, (insert lt key x xs). split; [reflexivity|].
      right. split; [exists xs; reflexivity | exact E].
    + exists x, (y :: xs). split; [reflexivity | left; reflexivity].
Qed.

Lemma insert_sorted (x : X) (xs : list X) :
  is_sorted lt key xs = true -> is_sorted lt key (insert lt key x xs) = true.
Proof.
  induction xs as [|y xs IH]; intros H; [reflexivity|].
  cbn [insert]. destruct (lt (key y) (key x)) eqn:E.
  - assert (Hxs : is_sorted lt key xs = true).
    { cbn [is_sorted] in H. destruct xs; [reflexivity|].
      apply andb_prop in H. apply H. }
    specialize (IH Hxs).
    destruct (insert_head x xs) as [z [rest [Ez Hz]]].
    cbn [is_sorted]. rewrite Ez. rewrite <- Ez, IH, andb_true_r.
    destruct Hz as [-> | [[xs' ->] _]].
    + rewrite (lt_asym _ _ E). reflexivity.
    + cbn [is_sorted] in H. apply andb_prop in H. apply H.
  - change (negb (lt (key y) (key x)) && is_sorted lt key (y :: xs) = true).
    rewrite E, H. reflexivity.
Qed.

(** What [sort] returns is in order. *)
Lemma sort_sorted (xs : list X) : is_sorted lt key (sort lt key xs) = true.
Proof.
  induction xs as [|x xs IH]; [reflexivity|].
  cbn [sort]. apply insert_sorted. exact IH.
Qed.


End SortFacts.

Lemma sort_words_sorted (words : list Word.t) :
  Pipeline.words_sorted (Pipeline.sort_words words) = true.
Proof. apply sort_sorted. intros a b. apply tuple_lt_asym. Qed.





(* ------------------------------------------------------------------ *)
(** ** The partition into accumulators *)

Lemma sentences_of_filter (accs : list (list Word.t)) :
  Forall (fun a => a <> []) accs ->
  Forall2 emitted_for (filter kept accs) (sentences_of accs).
Proof.
  induction 1 as [|acc accs Hne _ IH]; [constructor|].
  rewrite sentences_of_cons. cbn [filter sentences_of flat_map].
  destruct acc as [|first more]; [congruence|].
  destruct (kept (first :: more)); cbn [app]; [|exact IH].
  constructor; [|exact IH].
  exists first, more. repeat split.
Qed.




(* ------------------------------------------------------------------ *)
(** ** Monotonic timing *)

Lemma words_sorted_starts (words : list Word.t) :
  Forall well_timed words -> Pipeline.words_sorted words = true ->
  StronglySorted starts_before words.
Proof.
  intros Ht Hs. apply Sorted_StronglySorted.
  - intros a b c. apply leb_trans.
  - induction words as [|x words IH]; [constructor|].
    inversion Ht as [|? ? Hx Ht']; subst.
    unfold Pipeline.words_sorted in *. cbn [is_sorted] in Hs.
    destruct words as [|y words]; [repeat constructor|].
    apply andb_prop in Hs. destruct Hs as [Hxy Hs].
    constructor; [apply IH; assumption|]. constructor.
    inversion Ht' as [|? ? Hy _]; subst.
    apply (not_ltb_leb _ _ _ _ Hx Hy).
    apply negb_true_iff in Hxy. unfold tuple_lt in Hxy. cbn [fst snd] in Hxy.
    destruct (Word.start y =? Word.start x)%float;
      [left; reflexivity | right; exact Hxy].
Qed.

Lemma strongly_sorted_app {X} (R : X -> X -> Prop) (xs ys : list X) :
  StronglySorted R (xs ++ ys) ->
  StronglySorted R xs /\ StronglySorted R ys
  /\ forall a b, In a xs -> In b ys -> R a b.
Proof.
  induction xs as [|x xs IH]; intros H.
  - repeat split; [constructor | exact H | intros a b []].
  - inversion H as [|? ? Hs Hf]; subst.
    destruct (IH Hs) as [H1 [H2 H3]].
    apply Forall_app in Hf. destruct Hf as [Hf1 Hf2].
    repeat split; [constructor; assumption | exact H2 |].
    intros a b [<- | Ha] Hb.
    + rewrite Forall_forall in Hf2. apply Hf2. exact Hb.
    + apply H3; assumption.
Qed.

Lemma strongly_sorted_adjacent {X} (R : X -> X -> Prop) (xs : list X)
    (i : nat) (a b : X) :
  StronglySorted R xs ->
  nth_error xs i = Some a -> nth_error xs (S i) = Some b -> R a b.
Proof.
  intros H. revert i. induction H as [|x xs Hs IH Hf]; intros i Ha Hb.
  - destruct i; discriminate.
  - destruct i as [|i].
    + injection Ha as <-. cbn [nth_error] in Hb.
      rewrite Forall_forall in Hf. apply Hf.
      apply (nth_error_In xs 0). exact Hb.
    + apply (IH i); assumption.
Qed.

Lemma last_in {X} (more : list X) (first : X) :
  last more first = first \/ In (last more first) more.
Proof.
  revert first. induction more as [|y more IH]; intros first.
  - left. reflexivity.
  - right. rewrite last_cons. destruct (IH y) as [-> | H].
    + left. reflexivity.
    + right. exact H.
Qed.

Lemma sentences_of_timing (accs : list (list Word.t)) :
  StronglySorted starts_before (concat accs) ->
  Forall well_timed (concat accs) ->
  Forall sentence_timed (sentences_of accs)
  /\ StronglySorted sentence_starts_before (sentences_of accs)
  /\ Forall (fun s => exists w0, In w0 (concat accs)
                        /\ Sentence.start_time s = Word.start w0)
       (sentences_of accs).
Proof.
  induction accs as [|acc accs IH]; intros Hs Ht.
  - repeat split; constructor.
  - cbn [concat] in Hs, Ht.
    destruct (strongly_sorted_app _ _ _ Hs) as [Hacc [Hrest Hcross]].
    apply Forall_app in Ht. destruct Ht as [Htacc Htrest].
    destruct (IH Hrest Htrest) as [I1 [I2 I3]].
    assert (Lift : Forall (fun s => exists w0, In w0 (concat (acc :: accs))
                             /\ Sentence.start_time s = Word.start w0)
                     (sentences_of accs)).
    { eapply Forall_impl; [|exact I3]. intros s [w0 [Hin E]].
      exists w0. split; [cbn [concat]; apply in_or_app; right|]; assumption. }
    rewrite sentences_of_cons. cbn [sentences_of flat_map].
    destruct acc as [|first more]; [cbn [app]; auto|].
    destruct (kept (first :: more)); cbn [app]; [|auto].
    repeat split.
    + constructor; [|exact I1].
      unfold sentence_timed, sentence_of. cbn [Sentence.start_time Sentence.end_time].
      inversion Htacc as [|? ? Hf Htm]; subst.
      destruct (last_in more first) as [-> | Hin]; [exact Hf|].
      apply leb_trans with (y := Word.start (last more first)).
      * inversion Hacc as [|? ? _ Hall]; subst.
        rewrite Forall_forall in Hall. apply Hall. exact Hin.
      * rewrite Forall_forall in Htm. apply Htm. exact Hin.
    + constructor; [exact I2|].
      rewrite Forall_forall. intros s Hin.
      rewrite Forall_forall in I3. destruct (I3 s Hin) as [w0 [Hw E]].
      unfold sentence_starts_before, sentence_of. cbn [Sentence.start_time].
      rewrite E. apply Hcross; [left; reflexivity | exact Hw].
    + constructor; [|exact Lift].
      exists first. split; [left; reflexivity | reflexivity].
Qed.

(** Two words with [start <= end] out of order: the one sentence made
    of them starts at 5 s and ends at 2 s. *)
Lemma unsorted_words_break_timing :
  Forall well_timed [w "a" 5 6; w "b." 1 2]
  /\ Pipeline.words_to_sentences [w "a" 5 6; w "b." 1 2] 0.75 80
     = Ok [Sentence.mk (lit "ab.") 5 2]
  /\ ~ sentence_timed (Sentence.mk (lit "ab.") 5 2).
Proof.
  split; [repeat constructor|].
  split; [vm_compute; reflexivity|].
  unfold sentence_timed. vm_compute. discriminate.
Qed.

(** C4, amended. For every list of words in the order of [(start, end)]
    (the order [transcribe] leaves them in) in which each word has
    [start <= end], every sentence the segmenter returns has
    [start_time <= end_time], and a sentence does not start after the
    one that follows it. *)
Theorem monotonic_timing (words : list Word.t) (gap_threshold : float)
    (max_chars : Z) :
  Forall well_timed words ->
  Pipeline.words_sorted words = true ->
  exists sentences,
    Pipeline.words_to_sentences words gap_threshold max_chars = Ok sentences
    /\ Forall sentence_timed sentences
    /\ forall i s1 s2,
         nth_error sentences i = Some s1 ->
         nth_error sentences (S i) = Some s2 ->
         sentence_starts_before s1 s2.
Proof.
  intros Ht Hs. eexists. split; [apply words_to_sentences_accumulators|].
  pose proof (words_sorted_starts _ Ht Hs) as Hss.
  rewrite <- (accumulators_concat gap_threshold max_chars words) in Hss, Ht.
  destruct (sentences_of_timing _ Hss Ht) as [T [S _]].
  split; [exact T|].
  intros i s1 s2. apply strongly_sorted_adjacent. exact S.
Qed.

Lemma monotonic_timing_witness :
  exists sentences,
    Pipeline.words_to_sentences hi_words 5 80 = Ok sentences
    /\ Forall sentence_timed sentences
    /\ forall i s1 s2,
         nth_error sentences i = Some s1 ->
         nth_error sentences (S i) = Some s2 ->
         sentence_starts_before s1 s2.
Proof.
  apply (monotonic_timing hi_words 5 80).
  - repeat constructor.
  - reflexivity.
Defined.

(* ------------------------------------------------------------------ *)
(** ** The form [normalize_spacing] leaves a text in *)

Section Spacing.

Variable cls : list N.

Lemma spaced_tail (at_end : bool) (c : N) (s : str) :
  spaced at_end cls (c :: s) = true -> spaced at_end cls s = true.
Proof. cbn [spaced]. intros H. apply andb_prop in H. apply H. Qed.

Lemma spaced_weaken (at_end : bool) (s : str) :
  spaced false cls s = true -> spaced at_end [] s = true.
Proof.
  induction s as [|c s IH]; [reflexivity|]. cbn [spaced].
  intros H. apply andb_prop in H. destruct H as [Hc Hs].
  rewrite (IH Hs), andb_true_r.
  destruct (isspace c); [|reflexivity].
  apply andb_prop in Hc. destruct Hc as [-> Hd]. cbn [andb].
  destruct s as [|d s]; [discriminate|].
  apply andb_prop in Hd. destruct Hd as [-> _]. reflexivity.
Qed.

Lemma spaced_lstrip (at_end : bool) (s : str) :
  spaced at_end cls s = true -> spaced at_end cls (lstrip s) = true.
Proof.
  induction s as [|c s IH]; [reflexivity|]. intros H. cbn [lstrip].
  destruct (isspace c); [|exact H].
  apply IH. apply (spaced_tail _ _ _ H).
Qed.

End Spacing.

Lemma starts_clean_lstrip (s : str) : starts_clean (lstrip s) = true.
Proof.
  induction s as [|c s IH]; [reflexivity|]. cbn [lstrip].
  destruct (isspace c) eqn:E; [exact IH|]. cbn [starts_clean].
  rewrite E. reflexivity.
Qed.

Lemma lstrip_fixed (s : str) : starts_clean s = true -> lstrip s = s.
Proof.
  destruct s as [|c s]; [reflexivity|]. cbn [starts_clean lstrip].
  intros H. apply negb_true_iff in H. rewrite H. reflexivity.
Qed.

Lemma rstrip_snoc (s : str) (c : N) :
  rstrip (s ++ [c]) = if isspace c then rstrip s else s ++ [c].
Proof.
  unfold rstrip. rewrite rev_app_distr. cbn [rev app lstrip].
  destruct (isspace c); [reflexivity|].
  cbn [rev]. rewrite rev_involutive. reflexivity.
Qed.

Lemma rstrip_cons (c : N) (s : str) :
  rstrip (c :: s)
  = match rstrip s with
    | [] => if isspace c then [] else [c]
    | d :: s' => c :: d :: s'
    end.
Proof.
  induction s as [|d s IH] using rev_ind.
  - unfold rstrip. cbn. destruct (isspace c); reflexivity.
  - change (c :: s ++ [d]) with ((c :: s) ++ [d]).
    rewrite !rstrip_snoc. destruct (isspace d); [exact IH|].
    destruct s; reflexivity.
Qed.

Lemma rstrip_head (s : str) (d : N) (s' : str) :
  rstrip s = d :: s' -> exists s'', s = d :: s''.
Proof.
  destruct s as [|c s]; [discriminate|]. rewrite rstrip_cons.
  destruct (rstrip s); [destruct (isspace c)|]; intros H;
    try discriminate; injection H as -> _; eexists; reflexivity.
Qed.

Lemma starts_clean_rstrip (s : str) :
  starts_clean s = true -> starts_clean (rstrip s) = true.
Proof.
  destruct s as [|c s]; [reflexivity|]. rewrite rstrip_cons.
  cbn [starts_clean]. intros H.
  destruct (rstrip s); [|exact H].
  apply negb_true_iff in H. rewrite H. cbn. rewrite H. reflexivity.
Qed.

Lemma spaced_rstrip (s : str) :
  spaced true [] s = true -> spaced false [] (rstrip s) = true.
Proof.
  induction s as [|c s IH]; [reflexivity|]. intros H.
  pose proof (IH (spaced_tail _ _ _ _ H)) as IHs.
  rewrite rstrip_cons. destruct (rstrip s) as [|d s'] eqn:E.
  - destruct (isspace c) eqn:Ec; [reflexivity|]. cbn. rewrite Ec. reflexivity.
  - cbn [spaced] in H |- *. change (spaced false [] (d :: s')) with
      ((if isspace d then (d =? 32)%N
          && match s' with
             | d0 :: _ => negb (isspace d0) && negb (contains [] d0)
             | [] => false
             end
        else true) && spaced false [] s') in IHs |- *.
    rewrite IHs, andb_true_r.
    destruct (isspace c); [|reflexivity].
    destruct (rstrip_head _ _ _ E) as [s'' ->].
    apply andb_prop in H. destruct H as [H _]. exact H.
Qed.

Lemma rstrip_fixed (s : str) : spaced false [] s = true -> rstrip s = s.
Proof.
  induction s as [|c s IH]; [reflexivity|]. intros H.
  rewrite rstrip_cons, (IH (spaced_tail _ _ _ _ H)).
  destruct s as [|d s]; [|reflexivity].
  cbn in H. destruct (isspace c); [|reflexivity].
  rewrite andb_false_r in H. discriminate.
Qed.

Lemma sub_ws_run_spaced (s : str) (in_run : bool) :
  spaced true [] (sub_ws_run in_run s) = true
  /\ (in_run = true -> starts_clean (sub_ws_run in_run s) = true).
Proof.
  revert in_run. induction s as [|c s IH]; intros in_run.
  - split; reflexivity.
  - cbn [sub_ws_run]. destruct (isspace c) eqn:Ec.
    + destruct in_run; [apply IH|]. split; [|discriminate].
      destruct (IH true) as [Hs Hc]. specialize (Hc eq_refl).
      cbn [spaced]. rewrite Hs, andb_true_r.
      change (isspace 32) with true. cbn [N.eqb Pos.eqb andb].
      destruct (sub_ws_run true s); [reflexivity|].
      cbn [starts_clean] in Hc. rewrite Hc. reflexivity.
    + destruct (IH false) as [Hs _]. split.
      * cbn [spaced]. rewrite Ec. exact Hs.
      * intros _. cbn [starts_clean]. rewrite Ec. reflexivity.
Qed.

Lemma sub_ws_run_fixed (s : str) (in_run : bool) :
  spaced false [] s = true -> (in_run = true -> starts_clean s = true) ->
  sub_ws_run in_run s = s.
Proof.
  revert in_run. induction s as [|c s IH]; intros in_run H Hc; [reflexivity|].
  pose proof (spaced_tail _ _ _ _ H) as Hs.
  cbn [sub_ws_run]. destruct (isspace c) eqn:Ec.
  - destruct in_run.
    + specialize (Hc eq_refl). cbn [starts_clean] in Hc.
      rewrite Ec in Hc. discriminate.
    + cbn [spaced] in H. rewrite Ec in H.
      apply andb_prop in H. destruct H as [H _].
      apply andb_prop in H. destruct H as [E32 Hd].
      apply N.eqb_eq in E32. subst c. f_equal.
      apply IH; [exact Hs|]. intros _.
      destruct s as [|d s]; [reflexivity|].
      apply andb_prop in Hd. apply Hd.
  - f_equal. apply IH; [exact Hs | discriminate].
Qed.

Section BeforeClass.

Variable cls : list N.

Lemma sub_ws_before_spaced (s : str) :
  spaced false [] s = true ->
  spaced false cls (sub_ws_before cls s) = true
  /\ (starts_clean s = true -> starts_clean (sub_ws_before cls s) = true).
Proof.
  induction s as [|c s IH]; intros H; [split; reflexivity|].
  destruct (IH (spaced_tail _ _ _ _ H)) as [IHs IHc].
  cbn [sub_ws_before]. destruct (isspace c) eqn:Ec.
  - split; [|cbn [starts_clean]; rewrite Ec; discriminate].
    cbn [spaced] in H. rewrite Ec in H.
    apply andb_prop in H. destruct H as [H _].
    apply andb_prop in H. destruct H as [E32 Hd].
    destruct s as [|d s]; [discriminate|].
    apply andb_prop in Hd. destruct Hd as [Hd _].
    apply negb_true_iff in Hd.
    unfold ws_then. cbn [lstrip]. rewrite Hd. cbn [andb].
    destruct (contains cls d) eqn:Ed; [exact IHs|].
    cbn [sub_ws_before] in IHs |- *. rewrite Hd in IHs |- *.
    cbn [andb] in IHs |- *.
    change (spaced false cls (c :: d :: sub_ws_before cls s))
      with ((if isspace c then (c =? 32)%N
               && (negb (isspace d) && negb (contains cls d))
             else true)
            && spaced false cls (d :: sub_ws_before cls s)).
    rewrite IHs, Ec, E32, Hd, Ed. reflexivity.
  - cbn [andb]. split.
    + cbn [spaced]. rewrite Ec. exact IHs.
    + intros _. cbn [starts_clean]. rewrite Ec. reflexivity.
Qed.

Lemma sub_ws_before_fixed (s : str) :
  spaced false cls s = true -> sub_ws_before cls s = s.
Proof.
  induction s as [|c s IH]; intros H; [reflexivity|].
  cbn [sub_ws_before]. rewrite (IH (spaced_tail _ _ _ _ H)).
  destruct (isspace c) eqn:Ec; [|reflexivity].
  cbn [spaced] in H. rewrite Ec in H.
  apply andb_prop in H. destruct H as [H _].
  apply andb_prop in H. destruct H as [_ Hd].
  destruct s as [|d s]; [discriminate|].
  apply andb_prop in Hd. destruct Hd as [Hd Hk].
  apply negb_true_iff in Hd, Hk.
  unfold ws_then. cbn [lstrip]. rewrite Hd, Hk. reflexivity.
Qed.

Lemma spaced_nth (s : str) (i : nat) (c : N) :
  spaced false cls s = true ->
  nth_error s i = Some c -> isspace c = true ->
  c = 32%N
  /\ exists d, nth_error s (S i) = Some d
               /\ isspace d = false /\ ~ In d cls.
Proof.
  revert i. induction s as [|c0 s IH]; intros i H Hi Hc.
  - destruct i; discriminate.
  - destruct i as [|i].
    + injection Hi as ->. cbn [spaced] in H. rewrite Hc in H.
      apply andb_prop in H. destruct H as [H _].
      apply andb_prop in H. destruct H as [E32 Hd].
      apply N.eqb_eq in E32. split; [exact E32|].
      destruct s as [|d s]; [discriminate|].
      apply andb_prop in Hd. destruct Hd as [Hd Hk].
      apply negb_true_iff in Hd, Hk.
      exists d. repeat split; [exact Hd|].
      intros Hin. apply contains_In in Hin. congruence.
    + apply (IH i (spaced_tail _ _ _ _ H) Hi Hc).
Qed.

End BeforeClass.

Lemma normalize_spacing_spaced (s : str) :
  starts_clean (Pipeline.normalize_spacing s) = true
  /\ spaced false Pipeline.CJK_END_CHARS (Pipeline.normalize_spacing s) = true.
Proof.
  unfold Pipeline.normalize_spacing, strip.
  destruct (sub_ws_run_spaced s false) as [Hs _].
  pose proof (spaced_rstrip _ (spaced_lstrip [] true _ Hs)) as Ht.
  pose proof (starts_clean_rstrip _ (starts_clean_lstrip (sub_ws_run false s)))
    as Hc.
  destruct (sub_ws_before_spaced Pipeline.CJK_END_CHARS _ Ht) as [H1 H2].
  split; [apply H2; exact Hc | exact H1].
Qed.

Lemma spaced_fixed (t : str) :
  starts_clean t = true -> spaced false Pipeline.CJK_END_CHARS t = true ->
  Pipeline.normalize_spacing t = t /\ normalized t.
Proof.
  intros Hc Hs.
  pose proof (spaced_weaken _ false _ Hs) as Hw.
  assert (St : strip t = t).
  { unfold strip. rewrite (lstrip_fixed _ Hc). apply rstrip_fixed. exact Hw. }
  split.
  - unfold Pipeline.normalize_spacing.
    rewrite (sub_ws_run_fixed t false Hw) by discriminate.
    rewrite St. apply sub_ws_before_fixed. exact Hs.
  - split; [exact St|]. intros i c. apply spaced_nth. exact Hs.
Qed.

(** C9. [normalize_spacing] is idempotent, and what it returns has no
    whitespace at either end, no whitespace other than single U+0020
    characters between other characters, and none in front of
    [。 ！ ？ …]; the text of every sentence the segmenter returns is
    such a text, which [normalize_spacing] leaves as it is. *)
Theorem normalize_spacing_idempotent (s : str) (words : list Word.t)
    (gap_threshold : float) (max_chars : Z) :
  Pipeline.normalize_spacing (Pipeline.normalize_spacing s)
  = Pipeline.normalize_spacing s
  /\ normalized (Pipeline.normalize_spacing s)
  /\ exists sentences,
       Pipeline.words_to_sentences words gap_threshold max_chars = Ok sentences
       /\ Forall (fun sent =>
                    Pipeline.normalize_spacing (Sentence.text sent)
                    = Sentence.text sent
                    /\ normalized (Sentence.text sent))
            sentences.
Proof.
  destruct (normalize_spacing_spaced s) as [Hc Hs].
  destruct (spaced_fixed _ Hc Hs) as [Hf Hn].
  split; [exact Hf|]. split; [exact Hn|].
  eexists. split; [apply words_to_sentences_accumulators|].
  generalize (accumulators gap_threshold max_chars words). intros accs.
  induction accs as [|acc accs IH]; [constructor|].
  rewrite sentences_of_cons. apply Forall_app. split; [|exact IH].
  cbn [sentences_of flat_map]. destruct acc as [|first more]; [constructor|].
  destruct (kept (first :: more)); [|constructor].
  constructor; [|constructor].
  unfold sentence_of. cbn [Sentence.text].
  destruct (normalize_spacing_spaced (Pipeline.join_text (first :: more)))
    as [Hc' Hs'].
  apply spaced_fixed; assumption.
Qed.

(* ------------------------------------------------------------------ *)
(** ** The bounds of a clip *)

Lemma int_finite (x : float) : finite x -> exists a, int x = Ok a.
Proof.
  unfold finite, int. destruct (Prim2SF x); intros H;
    try contradiction; eexists; reflexivity.
Qed.

(** [int] drops the fraction: the magnitude of [int x] is the largest
    integer not above the magnitude of [x]. *)
Lemma int_truncates (x : float) (s : bool) (m : positive) (e : Z) :
  Prim2SF x = S754_finite s m e -> (e < 0)%Z ->
  exists a, int x = Ok (if s then (- a)%Z else a)
            /\ (a * 2 ^ (- e) <= Z.pos m < (a + 1) * 2 ^ (- e))%Z.
Proof.
  intros E He. unfold int. rewrite E.
  destruct (Z.leb_spec 0 e) as [H|_]; [lia|].
  exists (Z.pos m / 2 ^ (- e))%Z. split; [reflexivity|].
  assert (P : (0 < 2 ^ (- e))%Z) by (apply Z.pow_pos_nonneg; lia).
  pose proof (Z.mul_div_le (Z.pos m) _ P).
  pose proof (Z.mul_succ_div_gt (Z.pos m) _ P).
  lia.
Qed.

(** A sentence that starts at 1.0009765625 s: the code cuts from
    millisecond 1000, the nearest millisecond is 1001. *)
Lemma bounds_are_truncated :
  Pipeline.ms_bounds (Sentence.mk (lit "x") 1.0009765625 2) = Ok (1000, 2000)%Z
  /\ Spec.ms_bounds (Sentence.mk (lit "x") 1.0009765625 2) = Ok (1001, 2000)%Z
  /\ Pipeline.ms_bounds (Sentence.mk (lit "x") 1.0009765625 2)
     <> Spec.ms_bounds (Sentence.mk (lit "x") 1.0009765625 2).
Proof.
  assert (A : Pipeline.ms_bounds (Sentence.mk (lit "x") 1.0009765625 2)
              = Ok (1000, 2000)%Z) by (vm_compute; reflexivity).
  assert (B : Spec.ms_bounds (Sentence.mk (lit "x") 1.0009765625 2)
              = Ok (1001, 2000)%Z) by (vm_compute; reflexivity).
  split; [exact A | split; [exact B |]].
  rewrite A, B. discriminate.
Qed.

(** C5, amended. For every sentence whose times in milliseconds are
    finite, the bounds of the slice are
    [start_ms = max(int(start_time*1000), 0)] and
    [end_ms = max(int(end_time*1000), start_ms + 1)], [int] dropping
    the fraction; so [start_ms >= 0] and [end_ms >= start_ms + 1], and
    the range from [start_ms] to [end_ms] is not empty. *)
Theorem clip_bounds (sent : Sentence.t) :
  finite (Sentence.start_time sent * 1000)%float ->
  finite (Sentence.end_time sent * 1000)%float ->
  exists a b start_ms end_ms,
    int (Sentence.start_time sent * 1000)%float = Ok a
    /\ int (Sentence.end_time sent * 1000)%float = Ok b
    /\ Pipeline.ms_bounds sent = Ok (start_ms, end_ms)
    /\ start_ms = Z.max a 0
    /\ end_ms = Z.max b (start_ms + 1)
    /\ (0 <= start_ms)%Z
    /\ (start_ms + 1 <= end_ms)%Z.
Proof.
  intros Hs He.
  destruct (int_finite _ Hs) as [a Ha], (int_finite _ He) as [b Hb].
  exists a, b, (Z.max a 0), (Z.max b (Z.max a 0 + 1)).
  unfold Pipeline.ms_bounds. rewrite Ha, Hb. cbn [bind].
  repeat split; lia.
Qed.

Lemma clip_bounds_witness :
  exists a b start_ms end_ms,
    int (1.5 * 1000)%float = Ok a
    /\ int (1.5 * 1000)%float = Ok b
    /\ Pipeline.ms_bounds (Sentence.mk (lit "x") 1.5 1.5) = Ok (start_ms, end_ms)
    /\ start_ms = Z.max a 0
    /\ end_ms = Z.max b (start_ms + 1)
    /\ (0 <= start_ms)%Z
    /\ (start_ms + 1 <= end_ms)%Z.
Proof.
  apply (clip_bounds (Sentence.mk (lit "x") 1.5 1.5)); vm_compute; exact I.
Defined.

(* ------------------------------------------------------------------ *)
(** ** The names of the artifacts *)

Lemma lit_injective (s t : string) : lit s = lit t -> s = t.
Proof.
  unfold lit. intros H.
  apply (f_equal (map ascii_of_N)) in H. rewrite !map_map in H.
  rewrite (map_ext _ (fun a => a) ascii_N_embedding) in H.
  rewrite (map_ext _ (fun a => a) ascii_N_embedding) in H.
  rewrite !map_id in H.
  rewrite <- (string_of_list_ascii_of_string s),
    <- (string_of_list_ascii_of_string t), H.
  reflexivity.
Qed.

Lemma zeros_then_lit (k : nat) (d : uint) :
  repeat 48%N k ++ lit (NilEmpty.string_of_uint d)
  = lit (NilEmpty.string_of_uint (zeros_then k d)).
Proof.
  induction k as [|k IH]; [reflexivity|].
  cbn [repeat app zeros_then NilEmpty.string_of_uint]. rewrite IH. reflexivity.
Qed.

Lemma zeros_then_value (k : nat) (d : uint) :
  Nat.of_uint (zeros_then k d) = Nat.of_uint d.
Proof. induction k as [|k IH]; [reflexivity | exact IH]. Qed.

Lemma zfill_decimal_injective (width i j : nat) :
  zfill width (decimal i) = zfill width (decimal j) -> i = j.
Proof.
  unfold zfill, decimal. rewrite !zeros_then_lit. intros H.
  apply lit_injective in H.
  apply (f_equal NilEmpty.uint_of_string) in H.
  rewrite !NilEmpty.usu in H. injection H as H.
  apply (f_equal Nat.of_uint) in H.
  rewrite !zeros_then_value, !DecimalNat.Unsigned.of_to in H. exact H.
Qed.

(** Two ordinals never share a name. *)
Lemma filename_injective (i j : nat) :
  Pipeline.filename i = Pipeline.filename j -> i = j.
Proof.
  unfold Pipeline.filename. intros H.
  apply app_inv_head, app_inv_tail in H.
  apply (zfill_decimal_injective _ _ _ H).
Qed.

Lemma str_lt_trans (a b c : str) :
  str_lt a b = true -> str_lt b c = true -> str_lt a c = true.
Proof.
  revert b c. induction a as [|x a IH]; intros [|y b] [|z c];
    cbn [str_lt]; try discriminate; try reflexivity.
  destruct (N.ltb_spec x y), (N.ltb_spec y z), (N.ltb_spec x z);
    try reflexivity; try lia;
    destruct (N.eqb_spec x y), (N.eqb_spec y z), (N.eqb_spec x z);
    try discriminate; try lia; intros; try reflexivity.
  eapply IH; eassumption.
Qed.

Lemma filename_next (i : nat) :
  i < 999 ->
  str_lt (Pipeline.filename i) (Pipeline.filename (S i)) = true.
Proof.
  assert (A : forallb (fun i => str_lt (Pipeline.filename i)
                                  (Pipeline.filename (S i)))
                (seq 0 999) = true) by (vm_compute; reflexivity).
  rewrite forallb_forall in A. intros H. apply A, in_seq. lia.
Qed.

(** Up to the ordinal 999 the names grow with the ordinals. *)
Lemma filename_increasing (i j : nat) :
  i < j -> j <= 999 ->
  str_lt (Pipeline.filename i) (Pipeline.filename j) = true.
Proof.
  induction j as [|j IH]; intros Hij Hj; [lia|].
  destruct (Nat.eq_dec i j) as [->|Hne].
  - apply filename_next. lia.
  - apply str_lt_trans with (b := Pipeline.filename j).
    + apply IH; lia.
    + apply filename_next. lia.
Qed.

(** Up to the ordinal 999 a name has three digits. *)
Lemma filename_width (i : nat) :
  i <= 999 ->
  exists d2 d1 d0,
    Pipeline.filename i = lit "segment_" ++ [d2; d1; d0] ++ lit ".mp3".
Proof.
  assert (A : forallb (fun i => match zfill 3 (decimal i) with
                                | [_; _; _] => true
                                | _ => false
                                end)
                (seq 0 1000) = true) by (vm_compute; reflexivity).
  rewrite forallb_forall in A. intros H.
  assert (Hin : In i (seq 0 1000)) by (apply in_seq; lia).
  specialize (A i Hin). unfold Pipeline.filename.
  destruct (zfill 3 (decimal i)) as [|d2 [|d1 [|d0 [|? ?]]]];
    try discriminate.
  exists d2, d1, d0. reflexivity.
Qed.

(* ------------------------------------------------------------------ *)
(** ** The export *)

Section ExportFacts.

Variable fails : world -> event -> option exn.
Variable round3 : float -> float.

Lemma perform_cases (ev : event) (wd : world) :
  (exists e, fails wd ev = Some e
             /\ Pipeline.perform fails ev wd = (Raise e, wd))
  \/ (fails wd ev = None
      /\ Pipeline.perform fails ev wd = (Ok tt, wd ++ [ev])).
Proof.
  unfold Pipeline.perform. destruct (fails wd ev) as [e|].
  - left. exists e. split; reflexivity.
  - right. split; reflexivity.
Qed.

Lemma all_performed_cons (wd : world) (ev : event) (evs : list event) :
  fails wd ev = None -> all_performed fails (wd ++ [ev]) evs ->
  all_performed fails wd (ev :: evs).
Proof.
  intros H0 H pre ev' post E. destruct pre as [|p pre].
  - injection E as <- _. rewrite app_nil_r. exact H0.
  - injection E as <- E. specialize (H pre ev' post E).
    rewrite <- app_assoc in H. exact H.
Qed.

Lemma all_performed_nil (wd : world) : all_performed fails wd [].
Proof. intros [|? ?] ev post E; discriminate. Qed.

(** The loop of [export_clips]: what it has done when it ends, and what
    it returns when it ends well. *)
Lemma export_loop (seg_dir : str) (isents : list (nat * Sentence.t))
    (results : list ClipRecord.t) (wd : world)
    (r : result (list ClipRecord.t)) (wd' : world) :
  io_for_each (Pipeline.export_step fails round3 seg_dir) isents results wd
  = (r, wd') ->
  exists evs,
    wd' = wd ++ evs
    /\ filter is_manifest evs = []
    /\ all_performed fails wd evs
    /\ match r with
       | Ok items =>
           items = results ++ map (record_of round3) isents
           /\ Forall2 (clip_of seg_dir) isents evs
       | Raise _ => True
       end.
Proof.
  revert results wd. induction isents as [|[i sent] isents IH];
    intros results wd H.
  - injection H as <- <-. exists []. rewrite !app_nil_r.
    repeat split; [apply all_performed_nil | constructor].
  - cbn [io_for_each] in H. unfold io_bind at 1 in H.
    unfold Pipeline.export_step at 1, io_bind at 1, io_lift in H.
    destruct (Pipeline.ms_bounds sent) as [[start_ms end_ms]|e] eqn:B.
    + unfold io_bind at 1 in H.
      destruct (perform_cases
                  (ExportMp3 (seg_dir ++ lit "/" ++ Pipeline.filename i)
                     start_ms end_ms) wd) as [[e [_ P]] | [F P]];
        rewrite P in H.
      * injection H as <- <-. exists []. rewrite app_nil_r.
        repeat split. apply all_performed_nil.
      * unfold io_ret at 1 in H.
        destruct (IH _ _ H) as [evs [-> [M [A R]]]].
        exists (ExportMp3 (seg_dir ++ lit "/" ++ Pipeline.filename i)
                  start_ms end_ms :: evs).
        rewrite <- app_assoc. split; [reflexivity|].
        split; [exact M|]. split; [apply all_performed_cons; assumption|].
        destruct r as [items|]; [|exact I]. destruct R as [-> R].
        rewrite <- app_assoc. split; [reflexivity|].
        constructor; [|exact R]. exists start_ms, end_ms.
        split; [exact B | reflexivity].
    + injection H as <- <-. exists []. rewrite app_nil_r.
      repeat split. apply all_performed_nil.
Qed.

(** [export_clips]: the same, with the directory made first. *)
Lemma export_clips_outcome (sentences : list Sentence.t) (out_dir : str)
    (wd : world) (r : result (list ClipRecord.t)) (wd' : world) :
  Pipeline.export_clips fails round3 sentences out_dir wd = (r, wd') ->
  exists evs,
    wd' = wd ++ evs
    /\ filter is_manifest evs = []
    /\ all_performed fails wd evs
    /\ match r with
       | Ok items =>
           items = map (record_of round3) (enumerate 1 sentences)
           /\ exists clips,
                evs = Mkdir (out_dir ++ lit "/segments") :: clips
                /\ Forall2 (clip_of (out_dir ++ lit "/segments"))
                     (enumerate 1 sentences) clips
       | Raise _ => True
       end.
Proof.
  unfold Pipeline.export_clips, io_bind at 1. intros H.
  destruct (perform_cases (Mkdir (out_dir ++ lit "/segments")) wd)
    as [[e [_ P]] | [F P]]; rewrite P in H.
  - injection H as <- <-. exists []. rewrite app_nil_r.
    repeat split. apply all_performed_nil.
  - destruct (export_loop _ _ _ _ _ _ H) as [evs [-> [M [A R]]]].
    exists (Mkdir (out_dir ++ lit "/segments") :: evs).
    rewrite <- app_assoc. split; [reflexivity|].
    split; [exact M|]. split; [apply all_performed_cons; assumption|].
    destruct r as [items|]; [|exact I]. destruct R as [-> R].
    split; [reflexivity|]. exists evs. split; [reflexivity | exact R].
Qed.

Lemma io_for_each_app {S X} (body : S -> X -> io S) (xs ys : list X)
    (st : S) (wd : world) :
  io_for_each body (xs ++ ys) st wd
  = match io_for_each body xs st wd with
    | (Ok st', wd') => io_for_each body ys st' wd'
    | (Raise e, wd') => (Raise e, wd')
    end.
Proof.
  revert st wd. induction xs as [|x xs IH]; intros st wd; [reflexivity|].
  cbn [app io_for_each]. unfold io_bind.
  destruct (body st x wd) as [[st'|e] wd']; [apply IH | reflexivity].
Qed.

Lemma all_performed_tail (wd : world) (ev : event) (evs : list event) :
  all_performed fails wd (ev :: evs) ->
  fails wd ev = None /\ all_performed fails (wd ++ [ev]) evs.
Proof.
  intros H. split.
  - rewrite <- (app_nil_r wd). apply (H [] ev evs). reflexivity.
  - intros pre ev' post E. rewrite <- app_assoc.
    apply (H (ev :: pre) ev' post). rewrite E. reflexivity.
Qed.

(** The loop exports the clips it is let to export. *)
Lemma export_loop_run (seg_dir : str) (isents : list (nat * Sentence.t))
    (clips : list event) (results : list ClipRecord.t) (wd : world) :
  Forall2 (clip_of seg_dir) isents clips ->
  all_performed fails wd clips ->
  io_for_each (Pipeline.export_step fails round3 seg_dir) isents results wd
  = (Ok (results ++ map (record_of round3) isents), wd ++ clips).
Proof.
  intros F. revert results wd.
  induction F as [|[i sent] ev isents clips C _ IH]; intros results wd A.
  - cbn. rewrite !app_nil_r. reflexivity.
  - destruct C as [start_ms [end_ms [B ->]]]. cbn [fst snd] in B.
    destruct (all_performed_tail _ _ _ A) as [A0 A'].
    cbn [fst snd] in A0, A'.
    cbn [io_for_each map]. unfold io_bind at 1.
    unfold Pipeline.export_step at 1, io_bind at 1, io_lift. rewrite B.
    unfold io_bind at 1, Pipeline.perform at 1. rewrite A0.
    unfold io_ret at 1. rewrite (IH _ _ A'), <- !app_assoc. reflexivity.
Qed.

(** When the clips of the sentences [before] have been exported and
    the export of the clip of the next sentence raises, [export_clips]
    raises, with nothing done after those clips. *)
Lemma failed_clip_raises (sentences : list Sentence.t) (out_dir : str)
    (wd : world) (before : list (nat * Sentence.t)) (isent : nat * Sentence.t)
    (rest : list (nat * Sentence.t)) (clips : list event) (ev : event)
    (e : exn) :
  enumerate 1 sentences = before ++ isent :: rest ->
  Forall2 (clip_of (out_dir ++ lit "/segments")) before clips ->
  all_performed fails wd (Mkdir (out_dir ++ lit "/segments") :: clips) ->
  clip_of (out_dir ++ lit "/segments") isent ev ->
  fails (wd ++ Mkdir (out_dir ++ lit "/segments") :: clips) ev = Some e ->
  Pipeline.export_clips fails round3 sentences out_dir wd
  = (Raise e, wd ++ Mkdir (out_dir ++ lit "/segments") :: clips).
Proof.
  intros E F A C Hf.
  destruct (all_performed_tail _ _ _ A) as [A0 A'].
  unfold Pipeline.export_clips, io_bind at 1, Pipeline.perform at 1.
  rewrite A0, E, io_for_each_app, (export_loop_run _ _ _ _ _ F A').
  destruct isent as [i sent]. destruct C as [start_ms [end_ms [B ->]]].
  cbn [fst snd] in B, Hf. cbn [io_for_each]. unfold io_bind at 1.
  unfold Pipeline.export_step at 1, io_bind at 1, io_lift. rewrite B.
  unfold io_bind at 1, Pipeline.perform at 1.
  rewrite <- app_assoc. cbn [app]. rewrite Hf. reflexivity.
Qed.

End ExportFacts.

Lemma nth_error_records (round3 : float -> float)
    (sentences : list Sentence.t) (n : nat) (sent : Sentence.t) :
  nth_error sentences n = Some sent ->
  nth_error (map (record_of round3) (enumerate 1 sentences)) n
  = Some (ClipRecord.mk (Sentence.text sent)
            (round3 (Sentence.start_time sent))
            (round3 (Sentence.end_time sent))
            (lit "segments/" ++ Pipeline.filename (S n))).
Proof.
  intros H. rewrite nth_error_map, nth_error_enumerate, H. reflexivity.
Qed.

Lemma length_enumerate {X} (from : nat) (xs : list X) :
  length (enumerate from xs) = length xs.
Proof.
  unfold enumerate. rewrite length_combine, length_seq. apply Nat.min_id.
Qed.

(** A thousand sentences: the last two names are [segment_999.mp3] and
    [segment_1000.mp3], of different widths and out of order. *)
Lemma thousand_sentences_names :
  exists items wd',
    Pipeline.export_clips (fun _ _ => None) (fun x => x)
      (repeat (Sentence.mk (lit "x") 1 2) 1000) (lit "out") []
    = (Ok items, wd')
    /\ map ClipRecord.path (skipn 998 items)
       = [lit "segments/segment_999.mp3"; lit "segments/segment_1000.mp3"]
    /\ str_lt (lit "segments/segment_999.mp3")
         (lit "segments/segment_1000.mp3") = false
    /\ length (Pipeline.filename 999) <> length (Pipeline.filename 1000).
Proof.
  eexists. eexists. split; [vm_compute; reflexivity|].
  split; [vm_compute; reflexivity|].
  split; [vm_compute; reflexivity|].
  vm_compute. discriminate.
Qed.

(** C6, amended. When the export ends well, the manifest has one entry
    for each sentence, at the same index, with the text of the sentence
    and the path [segments/segment_NNN.mp3] of its 1-based ordinal, and
    one clip has been exported for each sentence under that name, in
    order.  The ordinal is padded with zeros to at least three digits:
    two ordinals never share a name, and up to the ordinal 999 the
    names have three digits and grow, as strings, with the ordinals. *)
Theorem manifest_correspondence (fails : world -> event -> option exn)
    (round3 : float -> float) (sentences : list Sentence.t) (out_dir : str)
    (wd : world) (items : list ClipRecord.t) (wd' : world) :
  Pipeline.export_clips fails round3 sentences out_dir wd = (Ok items, wd') ->
  length items = length sentences
  /\ (forall n sent,
        nth_error sentences n = Some sent ->
        nth_error items n
        = Some (ClipRecord.mk (Sentence.text sent)
                  (round3 (Sentence.start_time sent))
                  (round3 (Sentence.end_time sent))
                  (lit "segments/" ++ Pipeline.filename (S n))))
  /\ (exists clips,
        wd' = wd ++ Mkdir (out_dir ++ lit "/segments") :: clips
        /\ Forall2 (clip_of (out_dir ++ lit "/segments"))
             (enumerate 1 sentences) clips)
  /\ (forall i j, Pipeline.filename i = Pipeline.filename j -> i = j)
  /\ (forall i j, i < j -> j <= 999 ->
        str_lt (Pipeline.filename i) (Pipeline.filename j) = true)
  /\ (forall i, i <= 999 ->
        exists d2 d1 d0,
          Pipeline.filename i = lit "segment_" ++ [d2; d1; d0] ++ lit ".mp3").
Proof.
  intros H.
  destruct (export_clips_outcome _ _ _ _ _ _ _ H)
    as [evs [-> [_ [_ [-> [clips [-> C]]]]]]].
  split; [rewrite length_map; apply length_enumerate|].
  split; [intros n sent; apply nth_error_records|].
  split; [exists clips; split; [reflexivity | exact C]|].
  split; [exact filename_injective|].
  split; [exact filename_increasing | exact filename_width].
Qed.

Lemma manifest_correspondence_witness :
  exists items,
    length items = length two_sentences
    /\ nth_error items 1
       = Some (ClipRecord.mk (lit "x y") 0.5 1 (lit "segments/segment_002.mp3")).
Proof.
  eexists.
  refine (let H := manifest_correspondence never_fails (fun x => x)
                     two_sentences (lit "out") [] _ _ _ in
          conj (proj1 H) (proj1 (proj2 H) 1 _ eq_refl)).
  vm_compute. reflexivity.
Defined.

(** C7. Whatever the run of [main] from the export on ends in: if
    [export_clips] raises (a time that is not finite, the directory, or
    the export of some clip), [main] raises the same exception at that
    point and has written no manifest; if the clips of the sentences
    before some sentence have been exported and the export of the clip
    of that sentence raises, [main] raises that exception with nothing
    done after those clips; and either no manifest has been written and
    [main] has not ended well, or the manifest has been written once,
    with the entries [export_clips] returned, after the directory was
    made and the clip of every sentence exported, in order, none of
    these operations having raised. *)
Theorem export_failure_is_fatal (fails : world -> event -> option exn)
    (round3 : float -> float) (sentences : list Sentence.t) (out_dir : str)
    (export_srt : bool) (wd : world) (r : result unit) (wd1 : world) :
  Pipeline.main_export fails round3 sentences out_dir export_srt wd
  = (r, wd1) ->
  exists evs,
    wd1 = wd ++ evs
    /\ (forall e wd',
          Pipeline.export_clips fails round3 sentences out_dir wd
          = (Raise e, wd') ->
          r = Raise e /\ wd1 = wd' /\ filter is_manifest evs = [])
    /\ (forall before isent rest clips ev e,
          enumerate 1 sentences = before ++ isent :: rest ->
          Forall2 (clip_of (out_dir ++ lit "/segments")) before clips ->
          all_performed fails wd
            (Mkdir (out_dir ++ lit "/segments") :: clips) ->
          clip_of (out_dir ++ lit "/segments") isent ev ->
          fails (wd ++ Mkdir (out_dir ++ lit "/segments") :: clips) ev
          = Some e ->
          r = Raise e
          /\ wd1 = wd ++ Mkdir (out_dir ++ lit "/segments") :: clips)
    /\ ((filter is_manifest evs = [] /\ r <> Ok tt)
        \/ exists items clips after,
             Pipeline.export_clips fails round3 sentences out_dir wd
             = (Ok items, wd ++ Mkdir (out_dir ++ lit "/segments") :: clips)
             /\ Forall2 (clip_of (out_dir ++ lit "/segments"))
                  (enumerate 1 sentences) clips
             /\ all_performed fails wd
                  (Mkdir (out_dir ++ lit "/segments") :: clips)
             /\ evs = Mkdir (out_dir ++ lit "/segments") :: clips
                      ++ WriteJson (out_dir ++ lit "/segments.json") items
                         :: after
             /\ filter is_manifest evs
                = [WriteJson (out_dir ++ lit "/segments.json") items]).
Proof.
  unfold Pipeline.main_export, io_bind at 1. intros H.
  destruct (Pipeline.export_clips fails round3 sentences out_dir wd)
    as [[items|e] wd'] eqn:E.
  - destruct (export_clips_outcome _ _ _ _ _ _ _ E)
      as [evs [-> [M [A [-> [clips [-> C]]]]]]].
    unfold io_bind at 1, Pipeline.write_json in H.
    destruct (perform_cases fails
                (WriteJson (out_dir ++ lit "/segments.json")
                   (map (record_of round3) (enumerate 1 sentences)))
                (wd ++ Mkdir (out_dir ++ lit "/segments") :: clips))
      as [[e [_ P]] | [_ P]]; rewrite P in H.
    + injection H as <- <-.
      exists (Mkdir (out_dir ++ lit "/segments") :: clips).
      split; [reflexivity|]. split; [intros e' wd'; discriminate|].
      split; [intros before isent rest clips' ev e' E1 F1 A1 C1 F;
              rewrite (failed_clip_raises _ _ _ _ _ _ _ _ _ _ _ E1 F1 A1 C1 F)
                in E; discriminate|].
      left. split; [exact M | discriminate].
    + assert (T : exists after,
                 wd1 = (wd ++ Mkdir (out_dir ++ lit "/segments") :: clips)
                       ++ WriteJson (out_dir ++ lit "/segments.json")
                            (map (record_of round3) (enumerate 1 sentences))
                          :: after
                 /\ filter is_manifest after = []).
      { unfold Pipeline.maybe_write_srt in H.
        destruct (negb export_srt).
        - injection H as _ <-. exists []. rewrite <- app_assoc.
          split; reflexivity.
        - destruct (perform_cases fails
                      (WriteSrt (out_dir ++ lit "/segments.srt")
                         (map (record_of round3) (enumerate 1 sentences)))
                      ((wd ++ Mkdir (out_dir ++ lit "/segments") :: clips)
                       ++ [WriteJson (out_dir ++ lit "/segments.json")
                             (map (record_of round3) (enumerate 1 sentences))]))
            as [[e [_ Q]] | [_ Q]]; rewrite Q in H; injection H as _ <-.
          + exists []. rewrite <- app_assoc. split; reflexivity.
          + exists [WriteSrt (out_dir ++ lit "/segments.srt")
                      (map (record_of round3) (enumerate 1 sentences))].
            rewrite <- !app_assoc. split; reflexivity. }
      destruct T as [after [-> Ma]].
      exists (Mkdir (out_dir ++ lit "/segments") :: clips
              ++ WriteJson (out_dir ++ lit "/segments.json")
                   (map (record_of round3) (enumerate 1 sentences))
                 :: after).
      split; [rewrite <- app_assoc; reflexivity|].
      split; [intros e' wd'; discriminate|].
      split; [intros before isent rest clips' ev e' E1 F1 A1 C1 F;
              rewrite (failed_clip_raises _ _ _ _ _ _ _ _ _ _ _ E1 F1 A1 C1 F)
                in E; discriminate|].
      right. exists (map (record_of round3) (enumerate 1 sentences)), clips, after.
      split; [reflexivity|]. split; [exact C|]. split; [exact A|].
      split; [reflexivity|].
      change (Mkdir (out_dir ++ lit "/segments") :: clips
              ++ WriteJson (out_dir ++ lit "/segments.json")
                   (map (record_of round3) (enumerate 1 sentences)) :: after)
        with ((Mkdir (out_dir ++ lit "/segments") :: clips)
              ++ WriteJson (out_dir ++ lit "/segments.json")
                   (map (record_of round3) (enumerate 1 sentences)) :: after).
      rewrite filter_app, M. cbn [filter is_manifest app]. rewrite Ma.
      reflexivity.
  - injection H as <- <-.
    destruct (export_clips_outcome _ _ _ _ _ _ _ E) as [evs [-> [M _]]].
    exists evs. split; [reflexivity|]. split.
    + intros e' wd' E'. injection E' as <- <-.
      repeat split. exact M.
    + split.
      * intros before isent rest clips' ev e' E1 F1 A1 C1 F.
        rewrite (failed_clip_raises _ _ _ _ _ _ _ _ _ _ _ E1 F1 A1 C1 F) in E.
        injection E as <- <-. split; reflexivity.
      * left. split; [exact M | discriminate].
Qed.

Lemma export_failure_is_fatal_witness :
  exists evs,
    [Mkdir (lit "out/segments");
     ExportMp3 (lit "out/segments/segment_001.mp3") 0 500] = [] ++ evs
    /\ (forall e wd',
          Pipeline.export_clips second_clip_fails (fun x => x) two_sentences
            (lit "out") [] = (Raise e, wd') ->
          @Raise unit IOError = Raise e
          /\ [Mkdir (lit "out/segments");
              ExportMp3 (lit "out/segments/segment_001.mp3") 0 500] = wd'
          /\ filter is_manifest evs = [])
    /\ (forall before isent rest clips ev e,
          enumerate 1 two_sentences = before ++ isent :: rest ->
          Forall2 (clip_of (lit "out" ++ lit "/segments")) before clips ->
          all_performed second_clip_fails []
            (Mkdir (lit "out" ++ lit "/segments") :: clips) ->
          clip_of (lit "out" ++ lit "/segments") isent ev ->
          second_clip_fails
            ([] ++ Mkdir (lit "out" ++ lit "/segments") :: clips) ev
          = Some e ->
          @Raise unit IOError = Raise e
          /\ [Mkdir (lit "out/segments");
              ExportMp3 (lit "out/segments/segment_001.mp3") 0 500]
             = [] ++ Mkdir (lit "out" ++ lit "/segments") :: clips)
    /\ ((filter is_manifest evs = [] /\ @Raise unit IOError <> Ok tt)
        \/ exists items clips after,
             Pipeline.export_clips second_clip_fails (fun x => x) two_sentences
               (lit "out") []
             = (Ok items, [] ++ Mkdir (lit "out" ++ lit "/segments") :: clips)
             /\ Forall2 (clip_of (lit "out" ++ lit "/segments"))
                  (enumerate 1 two_sentences) clips
             /\ all_performed second_clip_fails []
                  (Mkdir (lit "out" ++ lit "/segments") :: clips)
             /\ evs = Mkdir (lit "out" ++ lit "/segments") :: clips
                      ++ WriteJson (lit "out" ++ lit "/segments.json") items
                         :: after
             /\ filter is_manifest evs
                = [WriteJson (lit "out" ++ lit "/segments.json") items]).
Proof.
  apply (export_failure_is_fatal second_clip_fails (fun x => x) two_sentences
           (lit "out") true [] (Raise IOError)
           [Mkdir (lit "out/segments");
            ExportMp3 (lit "out/segments/segment_001.mp3") 0 500]).
  vm_compute. reflexivity.
Defined.

(* ------------------------------------------------------------------ *)
(** ** More on [normalize_spacing]: only whitespace changes *)

Lemma visible_sub_ws_run (s : str) (in_run : bool) :
  filter not_space (sub_ws_run in_run s) = filter not_space s
  /\ length (sub_ws_run in_run s) <= length s.
Proof.
  revert in_run. induction s as [|c s IH]; intros in_run; [split; reflexivity|].
  cbn [sub_ws_run filter length]. unfold not_space at 2.
  destruct (isspace c) eqn:E; cbn [negb].
  - destruct in_run.
    + destruct (IH true) as [F L]. split; [exact F | lia].
    + destruct (IH true) as [F L]. cbn [filter length].
      change (not_space 32) with false. cbn iota. split; [exact F | lia].
  - destruct (IH false) as [F L]. cbn [filter length].
    unfold not_space at 1. rewrite E. cbn [negb]. rewrite F. split; [reflexivity | lia].
Qed.

Lemma visible_lstrip (s : str) :
  filter not_space (lstrip s) = filter not_space s
  /\ length (lstrip s) <= length s.
Proof.
  induction s as [|c s [F L]]; [split; reflexivity|].
  cbn [lstrip]. destruct (isspace c) eqn:E; [|split; reflexivity].
  cbn [filter length]. unfold not_space at 2. rewrite E. cbn [negb].
  split; [exact F | lia].
Qed.

Lemma visible_rstrip (s : str) :
  filter not_space (rstrip s) = filter not_space s
  /\ length (rstrip s) <= length s.
Proof.
  unfold rstrip. destruct (visible_lstrip (rev s)) as [F L]. split.
  - rewrite filter_rev, F, filter_rev, rev_involutive. reflexivity.
  - rewrite length_rev. rewrite length_rev in L. exact L.
Qed.

Lemma visible_sub_ws_before (cls : list N) (s : str) :
  filter not_space (sub_ws_before cls s) = filter not_space s
  /\ length (sub_ws_before cls s) <= length s.
Proof.
  induction s as [|c s [F L]]; [split; reflexivity|].
  cbn [sub_ws_before filter length]. unfold not_space at 2.
  destruct (isspace c) eqn:E; cbn [negb andb].
  - destruct (ws_then cls s).
    + split; [exact F | lia].
    + cbn [filter length]. unfold not_space at 1. rewrite E. cbn [negb].
      split; [exact F | lia].
  - cbn [filter length]. unfold not_space at 1. rewrite E. cbn [negb].
    rewrite F. split; [reflexivity | lia].
Qed.

Lemma visible_normalize_spacing (s : str) :
  filter not_space (Pipeline.normalize_spacing s) = filter not_space s
  /\ length (Pipeline.normalize_spacing s) <= length s.
Proof.
  unfold Pipeline.normalize_spacing, strip.
  destruct (visible_sub_ws_before Pipeline.CJK_END_CHARS
              (rstrip (lstrip (sub_ws_run false s)))) as [F1 L1].
  destruct (visible_rstrip (lstrip (sub_ws_run false s))) as [F2 L2].
  destruct (visible_lstrip (sub_ws_run false s)) as [F3 L3].
  destruct (visible_sub_ws_run s false) as [F4 L4].
  split; [congruence | lia].
Qed.

(** X1. [normalize_spacing] changes whitespace only: the characters
    that are not whitespace come out the same, in the same order, and
    the text does not get longer. *)
Theorem normalize_spacing_keeps_visible (s : str) :
  filter not_space (Pipeline.normalize_spacing s) = filter not_space s
  /\ length (Pipeline.normalize_spacing s) <= length s.
Proof. exact (visible_normalize_spacing s). Qed.

Lemma visible_none (s : str) :
  filter not_space s = [] <-> forallb isspace s = true.
Proof.
  induction s as [|c s IH]; [split; reflexivity|].
  cbn [filter forallb]. unfold not_space at 1.
  destruct (isspace c); cbn [negb andb]; [exact IH|].
  split; discriminate.
Qed.

(** The normalised text is empty exactly when the text is all
    whitespace. *)
Lemma normalize_spacing_blank (s : str) :
  Pipeline.normalize_spacing s = [] <-> forallb isspace s = true.
Proof.
  rewrite <- visible_none.
  destruct (visible_normalize_spacing s) as [F _]. rewrite <- F.
  destruct (normalize_spacing_spaced s) as [Hc _].
  destruct (Pipeline.normalize_spacing s) as [|c t]; [split; reflexivity|].
  cbn [starts_clean] in Hc. cbn [filter]. unfold not_space at 1.
  rewrite Hc. split; discriminate.
Qed.

Lemma kept_visible (acc : list Word.t) :
  kept acc = negb (forallb isspace (Pipeline.join_text acc)).
Proof.
  unfold kept.
  destruct (normalize_spacing_spaced (Pipeline.join_text acc)) as [Hc Hs].
  destruct (spaced_fixed _ Hc Hs) as [_ [St _]]. rewrite St.
  pose proof (normalize_spacing_blank (Pipeline.join_text acc)) as B.
  destruct (Pipeline.normalize_spacing (Pipeline.join_text acc)) as [|c t].
  - rewrite (proj1 B eq_refl). reflexivity.
  - destruct (forallb isspace (Pipeline.join_text acc)); [|reflexivity].
    destruct B as [_ B]. discriminate (B eq_refl).
Qed.

(* ------------------------------------------------------------------ *)
(** ** More on the segmenter *)

Section SegmenterMore.

Variables (gap_threshold : float) (max_chars : Z).

Lemma join_text_snoc (acc : list Word.t) (x : Word.t) :
  Pipeline.join_text (acc ++ [x]) = Pipeline.join_text acc ++ Word.text x.
Proof.
  unfold Pipeline.join_text. rewrite map_app, concat_app. cbn.
  rewrite app_nil_r. reflexivity.
Qed.

Lemma sentences_of_length (accs : list (list Word.t)) :
  Forall (fun a => a <> []) accs ->
  length (sentences_of accs) <= length (concat accs).
Proof.
  induction 1 as [|acc accs Hne _ IH]; [reflexivity|].
  rewrite sentences_of_cons, length_app. cbn [concat]. rewrite length_app.
  cbn [sentences_of flat_map]. destruct acc as [|first more]; [congruence|].
  destruct (kept (first :: more)); cbn [length app]; lia.
Qed.

Lemma sentences_of_visible (accs : list (list Word.t)) :
  Forall (fun s => exists c rest, Sentence.text s = c :: rest
                                  /\ isspace c = false)
    (sentences_of accs).
Proof.
  induction accs as [|acc accs IH]; [constructor|].
  rewrite sentences_of_cons. apply Forall_app. split; [|exact IH].
  cbn [sentences_of flat_map]. destruct acc as [|first more]; [constructor|].
  destruct (kept (first :: more)) eqn:K; [|constructor].
  constructor; [|constructor]. unfold sentence_of. cbn [Sentence.text].
  destruct (normalize_spacing_spaced (Pipeline.join_text (first :: more)))
    as [Hc _].
  rewrite kept_visible in K. apply negb_true_iff in K.
  destruct (Pipeline.normalize_spacing (Pipeline.join_text (first :: more)))
    as [|c t] eqn:E.
  - apply normalize_spacing_blank in E. congruence.
  - exists c, t. split; [reflexivity|].
    cbn [starts_clean] in Hc. apply negb_true_iff in Hc. exact Hc.
Qed.

Lemma snoc_split2 {X} (acc : list X) (w0 : X) (pre : list X) (x y : X)
    (post : list X) :
  acc ++ [w0] = pre ++ x :: y :: post ->
  (post = [] /\ y = w0 /\ acc = pre ++ [x])
  \/ exists post', post = post' ++ [w0] /\ acc = pre ++ x :: y :: post'.
Proof.
  intros E. destruct post as [|p post] using rev_ind.
  - left. change (pre ++ [x; y]) with (pre ++ [x] ++ [y]) in E.
    rewrite app_assoc in E. apply app_inj_tail in E. destruct E as [-> ->].
    repeat split.
  - right. exists post.
    change (pre ++ x :: y :: post ++ [p])
      with (pre ++ (x :: y :: post) ++ [p]) in E.
    rewrite app_assoc in E. apply app_inj_tail in E. destruct E as [E1 E2].
    subst. split; reflexivity.
Qed.

Lemma scan_open_inside (rest acc : list Word.t) :
  open_inside gap_threshold max_chars acc ->
  (forall pre x, acc = pre ++ [x] ->
     Pipeline.need_close (Pipeline.join_text acc) x (hd_error rest)
       gap_threshold max_chars = false) ->
  Forall (open_inside gap_threshold max_chars)
    (fst (scan gap_threshold max_chars acc rest))
  /\ open_inside gap_threshold max_chars (snd (scan gap_threshold max_chars acc rest)).
Proof.
  revert acc. induction rest as [|w0 rest IH]; intros acc Hin Hlast.
  - split; [constructor | exact Hin].
  - assert (Hin' : open_inside gap_threshold max_chars (acc ++ [w0])).
    { intros pre x y post E.
      destruct (snoc_split2 _ _ _ _ _ _ E) as [[_ [-> ->]] | [post' [_ ->]]].
      - apply (Hlast pre x). reflexivity.
      - apply (Hin pre x y post'). reflexivity. }
    cbn [scan].
    destruct (Pipeline.need_close (Pipeline.join_text (acc ++ [w0])) w0
                (hd_error rest) gap_threshold max_chars) eqn:N.
    + destruct (IH []) as [Hc Ho].
      * intros pre x y post E. destruct pre; discriminate.
      * intros pre x E. destruct pre; discriminate.
      * destruct (scan gap_threshold max_chars [] rest) as [closed open].
        cbn [fst snd] in *. split; [constructor; assumption | exact Ho].
    + apply IH; [exact Hin'|].
      intros pre x E. apply app_inj_tail in E. destruct E as [_ <-]. exact N.
Qed.

Lemma accumulators_open_inside (words : list Word.t) :
  Forall (open_inside gap_threshold max_chars)
    (accumulators gap_threshold max_chars words).
Proof.
  unfold accumulators.
  destruct (scan_open_inside words []) as [Hc Ho].
  - intros pre x y post E. destruct pre; discriminate.
  - intros pre x E. destruct pre; discriminate.
  - destruct (scan gap_threshold max_chars [] words) as [closed open].
    cbn [fst snd] in *. apply Forall_app. split; [exact Hc|].
    destruct open; constructor; [exact Ho | constructor].
Qed.

Lemma need_close_at_punctuation (acc : list Word.t) (x : Word.t)
    (next : option Word.t) :
  ends_sentence x ->
  Pipeline.need_close (Pipeline.join_text (acc ++ [x])) x next
    gap_threshold max_chars = true.
Proof.
  intros [t [c [E Hc]]]. apply need_close_rules. left.
  exists (Pipeline.join_text acc ++ t), c.
  rewrite join_text_snoc, E, app_assoc. split; [reflexivity | exact Hc].
Qed.

Lemma scan_app_at_punctuation (ws1 : list Word.t) (x : Word.t)
    (ws2 acc : list Word.t) :
  ends_sentence x ->
  scan gap_threshold max_chars acc ((ws1 ++ [x]) ++ ws2)
  = (fst (scan gap_threshold max_chars acc (ws1 ++ [x]))
     ++ fst (scan gap_threshold max_chars [] ws2),
     snd (scan gap_threshold max_chars [] ws2))
  /\ snd (scan gap_threshold max_chars acc (ws1 ++ [x])) = [].
Proof.
  intros Hx. revert acc. induction ws1 as [|w0 ws1 IH]; intros acc.
  - cbn [app scan]. rewrite !need_close_at_punctuation by exact Hx.
    destruct (scan gap_threshold max_chars [] ws2) as [closed open].
    split; reflexivity.
  - cbn [app scan].
    replace (hd_error ((ws1 ++ [x]) ++ ws2)) with (hd_error (ws1 ++ [x]))
      by (destruct ws1; reflexivity).
    destruct (Pipeline.need_close _ _ _ _ _).
    + destruct (IH []) as [E1 E2]. rewrite E1.
      destruct (scan gap_threshold max_chars [] (ws1 ++ [x]))
        as [closed open].
      cbn [fst snd] in *. split; [reflexivity | exact E2].
    + apply IH.
Qed.

Lemma accumulators_app_at_punctuation (ws1 : list Word.t) (x : Word.t)
    (ws2 : list Word.t) :
  ends_sentence x ->
  accumulators gap_threshold max_chars ((ws1 ++ [x]) ++ ws2)
  = accumulators gap_threshold max_chars (ws1 ++ [x])
    ++ accumulators gap_threshold max_chars ws2.
Proof.
  intros Hx. unfold accumulators.
  destruct (scan_app_at_punctuation ws1 x ws2 [] Hx) as [E1 E2].
  rewrite E1.
  destruct (scan gap_threshold max_chars [] (ws1 ++ [x])) as [closed open].
  cbn [fst snd] in *. subst open.
  destruct (scan gap_threshold max_chars [] ws2) as [closed2 open2].
  cbn [fst snd]. rewrite app_nil_r, app_assoc. reflexivity.
Qed.

Lemma scan_nonpositive_guard (rest : list Word.t) :
  (max_chars <= 0)%Z ->
  scan gap_threshold max_chars [] rest = (map (fun x => [x]) rest, []).
Proof.
  intros Hm. induction rest as [|w0 rest IH]; [reflexivity|].
  cbn [scan app map].
  assert (N : Pipeline.need_close (Pipeline.join_text [w0]) w0 (hd_error rest)
                gap_threshold max_chars = true).
  { apply need_close_rules. right; right. unfold length_rule. lia. }
  rewrite N, IH. reflexivity.
Qed.

End SegmenterMore.

(** X2. The segmenter never returns a blank sentence: the text of every
    sentence it returns starts with a character that is not
    whitespace. *)
Theorem no_blank_sentence (words : list Word.t) (gap_threshold : float)
    (max_chars : Z) :
  exists sentences,
    Pipeline.words_to_sentences words gap_threshold max_chars = Ok sentences
    /\ Forall (fun s => exists c rest, Sentence.text s = c :: rest
                                       /\ isspace c = false)
         sentences.
Proof.
  eexists. split; [apply words_to_sentences_accumulators|].
  apply sentences_of_visible.
Qed.

(** X3. The segmenter never returns more sentences than it is given
    words. *)
Theorem no_more_sentences_than_words (words : list Word.t)
    (gap_threshold : float) (max_chars : Z) :
  exists sentences,
    Pipeline.words_to_sentences words gap_threshold max_chars = Ok sentences
    /\ length sentences <= length words.
Proof.
  eexists. split; [apply words_to_sentences_accumulators|].
  rewrite <- (accumulators_concat gap_threshold max_chars words) at 2.
  apply sentences_of_length, accumulators_nonempty.
Qed.

(** X4. The sentences returned are those of the accumulators of the
    run, and inside an accumulator no closing rule holds before the last
    word: for two consecutive words [x], [y] of one accumulator, the
    text up to [x] does not end in [. ! ? 。 ！ ？ …], [y] starts less
    than [gap_threshold] after [x] ends (the comparison
    [gap >= gap_threshold] is false), and the text up to [x] has fewer
    than [max_chars] characters. *)
Theorem no_rule_inside_a_sentence (words : list Word.t)
    (gap_threshold : float) (max_chars : Z) (acc pre : list Word.t)
    (x y : Word.t) (post : list Word.t) :
  In acc (accumulators gap_threshold max_chars words) ->
  acc = pre ++ x :: y :: post ->
  Pipeline.words_to_sentences words gap_threshold max_chars
  = Ok (sentences_of (accumulators gap_threshold max_chars words))
  /\ ~ punctuation_rule (Pipeline.join_text (pre ++ [x]))
  /\ (gap_threshold <=? Word.start y - Word.end_ x)%float = false
  /\ (Z.of_nat (length (Pipeline.join_text (pre ++ [x]))) < max_chars)%Z.
Proof.
  intros Hin E. split; [apply words_to_sentences_accumulators|].
  pose proof (accumulators_open_inside gap_threshold max_chars words) as H.
  rewrite Forall_forall in H. specialize (H acc Hin pre x y post E).
  assert (R : ~ (punctuation_rule (Pipeline.join_text (pre ++ [x]))
                 \/ gap_rule x (Some y) gap_threshold
                 \/ length_rule (Pipeline.join_text (pre ++ [x])) max_chars)).
  { intros R. apply need_close_rules in R. congruence. }
  split; [tauto|]. split.
  - destruct (gap_threshold <=? Word.start y - Word.end_ x)%float eqn:G;
      [|reflexivity].
    exfalso. apply R. right; left. exists y. split; [reflexivity | exact G].
  - unfold length_rule in R. lia.
Qed.

Lemma no_rule_inside_a_sentence_witness :
  Pipeline.words_to_sentences [w "a" 0 0.5; w "b" 0.5 1] 5 80
  = Ok (sentences_of (accumulators 5 80 [w "a" 0 0.5; w "b" 0.5 1]))
  /\ ~ punctuation_rule (Pipeline.join_text ([] ++ [w "a" 0 0.5]))
  /\ (5 <=? Word.start (w "b" 0.5 1) - Word.end_ (w "a" 0 0.5))%float = false
  /\ (Z.of_nat (length (Pipeline.join_text ([] ++ [w "a" 0 0.5]))) < 80)%Z.
Proof.
  apply (no_rule_inside_a_sentence [w "a" 0 0.5; w "b" 0.5 1] 5 80
           [w "a" 0 0.5; w "b" 0.5 1] [] (w "a" 0 0.5) (w "b" 0.5 1) []).
  - vm_compute. left. reflexivity.
  - reflexivity.
Defined.

(** X5. After a word whose text ends in one of [. ! ? 。 ！ ？ …] the
    segmenter starts afresh: the sentences of a list that continues
    after such a word are the sentences of the list up to the word
    followed by the sentences of the rest. *)
Theorem segmenter_composes_at_punctuation (ws1 : list Word.t) (x : Word.t)
    (ws2 : list Word.t) (gap_threshold : float) (max_chars : Z) :
  ends_sentence x ->
  exists s1 s2,
    Pipeline.words_to_sentences (ws1 ++ [x]) gap_threshold max_chars = Ok s1
    /\ Pipeline.words_to_sentences ws2 gap_threshold max_chars = Ok s2
    /\ Pipeline.words_to_sentences ((ws1 ++ [x]) ++ ws2) gap_threshold
         max_chars = Ok (s1 ++ s2).
Proof.
  intros Hx. eexists. eexists.
  split; [apply words_to_sentences_accumulators|].
  split; [apply words_to_sentences_accumulators|].
  rewrite words_to_sentences_accumulators,
    (accumulators_app_at_punctuation _ _ _ _ _ Hx), sentences_of_app.
  reflexivity.
Qed.

Lemma segmenter_composes_at_punctuation_witness :
  exists s1 s2,
    Pipeline.words_to_sentences ([w "Hi" 0 0.5] ++ [w "." 0.5 0.5]) 5 80 = Ok s1
    /\ Pipeline.words_to_sentences [w " x" 0.5 1] 5 80 = Ok s2
    /\ Pipeline.words_to_sentences
         (([w "Hi" 0 0.5] ++ [w "." 0.5 0.5]) ++ [w " x" 0.5 1]) 5 80
       = Ok (s1 ++ s2).
Proof.
  apply (segmenter_composes_at_punctuation [w "Hi" 0 0.5] (w "." 0.5 0.5)
           [w " x" 0.5 1] 5 80).
  exists [], 46%N. split; [reflexivity | simpl; tauto].
Defined.

(** X6. An accumulator gives no sentence exactly when the texts of its
    words are whitespace throughout: the sentences returned are, in
    order, those of the accumulators with a character that is not
    whitespace. *)
Theorem blank_accumulators_are_dropped (words : list Word.t)
    (gap_threshold : float) (max_chars : Z) :
  exists sentences,
    Pipeline.words_to_sentences words gap_threshold max_chars = Ok sentences
    /\ Forall2 emitted_for
         (filter (fun acc => negb (forallb isspace (Pipeline.join_text acc)))
            (accumulators gap_threshold max_chars words))
         sentences.
Proof.
  eexists. split; [apply words_to_sentences_accumulators|].
  rewrite <- (filter_ext _ _ kept_visible).
  apply sentences_of_filter, accumulators_nonempty.
Qed.

(** X7. With [max_chars <= 0] the length guard holds at every word:
    every word is an accumulator of its own. *)
Theorem nonpositive_guard_closes_every_word (words : list Word.t)
    (gap_threshold : float) (max_chars : Z) :
  (max_chars <= 0)%Z ->
  accumulators gap_threshold max_chars words = map (fun x => [x]) words
  /\ Pipeline.words_to_sentences words gap_threshold max_chars
     = Ok (sentences_of (map (fun x => [x]) words)).
Proof.
  intros Hm.
  assert (A : accumulators gap_threshold max_chars words
              = map (fun x => [x]) words).
  { unfold accumulators. rewrite scan_nonpositive_guard by exact Hm.
    apply app_nil_r. }
  split; [exact A|]. rewrite words_to_sentences_accumulators, A. reflexivity.
Qed.

Lemma nonpositive_guard_closes_every_word_witness :
  accumulators 5 0 hi_words = map (fun x => [x]) hi_words
  /\ Pipeline.words_to_sentences hi_words 5 0
     = Ok (sentences_of (map (fun x => [x]) hi_words)).
Proof. apply (nonpositive_guard_closes_every_word hi_words 5 0). lia. Defined.

(* ------------------------------------------------------------------ *)
(** ** The sort and the segmenter together *)

Section SortPermutes.

Variables (X K : Type) (lt : K -> K -> bool) (key : X -> K).

Lemma insert_permutes (x : X) (xs : list X) :
  Permutation (insert lt key x xs) (x :: xs).
Proof.
  induction xs as [|y xs IH]; [reflexivity|]. cbn [insert].
  destruct (lt (key y) (key x)); [|reflexivity].
  rewrite IH. apply perm_swap.
Qed.

Lemma sort_permutes (xs : list X) : Permutation (sort lt key xs) xs.
Proof.
  induction xs as [|x xs IH]; [reflexivity|]. cbn [sort].
  rewrite insert_permutes, IH. reflexivity.
Qed.

End SortPermutes.

(** X8. The sort of [transcribe] neither drops nor repeats a word: for
    words none of whose times is a NaN, what it returns is a
    rearrangement of the words, of the same length, none with a NaN. *)
Theorem sort_words_permutes (words : list Word.t) :
  Forall no_nan words ->
  Permutation (Pipeline.sort_words words) words
  /\ length (Pipeline.sort_words words) = length words
  /\ Forall no_nan (Pipeline.sort_words words).
Proof.
  intros Hn.
  assert (P : Permutation (Pipeline.sort_words words) words)
    by apply sort_permutes.
  split; [exact P|]. split; [apply Permutation_length; exact P|].
  eapply Permutation_Forall; [symmetry; exact P | exact Hn].
Qed.

Lemma sort_words_permutes_witness :
  Permutation (Pipeline.sort_words [w "b." 1 2; w "a" 0 0.5])
    [w "b." 1 2; w "a" 0 0.5]
  /\ length (Pipeline.sort_words [w "b." 1 2; w "a" 0 0.5])
     = length [w "b." 1 2; w "a" 0 0.5]
  /\ Forall no_nan (Pipeline.sort_words [w "b." 1 2; w "a" 0 0.5]).
Proof.
  apply (sort_words_permutes [w "b." 1 2; w "a" 0 0.5]).
  repeat constructor.
Defined.

(** X9. Sorting, then segmenting, as [main] does: for every list of
    words with [start <= end], in any order, every sentence has
    [start_time <= end_time] and no sentence starts after the one that
    follows it. *)
Theorem sorted_pipeline_timing (raw : list Word.t) (gap_threshold : float)
    (max_chars : Z) :
  Forall well_timed raw ->
  exists sentences,
    Pipeline.words_to_sentences (Pipeline.sort_words raw) gap_threshold
      max_chars = Ok sentences
    /\ Forall sentence_timed sentences
    /\ forall i s1 s2,
         nth_error sentences i = Some s1 ->
         nth_error sentences (S i) = Some s2 ->
         sentence_starts_before s1 s2.
Proof.
  intros Ht.
  assert (Ht' : Forall well_timed (Pipeline.sort_words raw)).
  { eapply Permutation_Forall; [|exact Ht].
    symmetry. apply sort_permutes. }
  eexists. split; [apply words_to_sentences_accumulators|].
  pose proof (words_sorted_starts _ Ht' (sort_words_sorted raw)) as Hss.
  rewrite <- (accumulators_concat gap_threshold max_chars
                (Pipeline.sort_words raw)) in Hss, Ht'.
  destruct (sentences_of_timing _ Hss Ht') as [T [S _]].
  split; [exact T|].
  intros i s1 s2. apply strongly_sorted_adjacent. exact S.
Qed.

Lemma sorted_pipeline_timing_witness :
  exists sentences,
    Pipeline.words_to_sentences
      (Pipeline.sort_words [w "b." 1 2; w "a" 0 0.5]) 5 80 = Ok sentences
    /\ Forall sentence_timed sentences
    /\ forall i s1 s2,
         nth_error sentences i = Some s1 ->
         nth_error sentences (S i) = Some s2 ->
         sentence_starts_before s1 s2.
Proof.
  apply (sorted_pipeline_timing [w "b." 1 2; w "a" 0 0.5] 5 80).
  repeat constructor.
Defined.

(* ------------------------------------------------------------------ *)
(** ** The loop of [transcribe] *)

Lemma token_loop (tks : list Token.t) (words : list Word.t) :
  fold_left Transcription.token_step tks words
  = words ++ flat_map token_word tks.
Proof.
  revert words. induction tks as [|tk tks IH]; intros words.
  - cbn. rewrite app_nil_r. reflexivity.
  - cbn [fold_left flat_map]. rewrite IH.
    unfold Transcription.token_step, token_word.
    destruct (Token.start tk), (Token.end_ tk); cbn [app];
      rewrite <- ?app_assoc; reflexivity.
Qed.

Lemma char_loop (per_char : float) (chars : str) (words : list Word.t)
    (t : float) :
  fst (fold_left (Transcription.char_step per_char) chars (words, t))
  = words ++ spread t per_char chars.
Proof.
  revert words t. induction chars as [|ch chars IH]; intros words t.
  - cbn. rewrite app_nil_r. reflexivity.
  - cbn [fold_left spread Transcription.char_step]. rewrite IH.
    rewrite <- app_assoc. reflexivity.
Qed.

Lemma segment_step_from (words : list Word.t) (seg_objs : list SegObj.t)
    (seg : Segment.t) :
  Transcription.segment_step (words, seg_objs) seg
  = (words ++ fst (Transcription.segment_step ([], []) seg),
     seg_objs ++ snd (Transcription.segment_step ([], []) seg)).
Proof.
  unfold Transcription.segment_step. cbn [SegObj.start SegObj.end_].
  destruct (Segment.words seg) as [|tk tks].
  - destruct (strip (Segment.text seg)) as [|c chars];
      [cbn; rewrite app_nil_r; reflexivity|].
    destruct (Segment.start seg) as [s|];
      [|cbn; rewrite app_nil_r; reflexivity].
    destruct (match Segment.end_ seg with
              | Some e => (e - s)%float
              | None => 0%float
              end <=? 0)%float;
      [cbn; rewrite app_nil_r; reflexivity|].
    cbn [fst snd app]. rewrite !char_loop. reflexivity.
  - cbn [fst snd app]. rewrite !token_loop. reflexivity.
Qed.

Lemma transcribe_loop_from (segments : list Segment.t)
    (st : list Word.t * list SegObj.t) :
  fold_left Transcription.segment_step segments st
  = (fst st ++ fst (Transcription.transcribe_loop segments),
     snd st ++ snd (Transcription.transcribe_loop segments)).
Proof.
  unfold Transcription.transcribe_loop. revert st.
  induction segments as [|seg segments IH]; intros [words seg_objs].
  - cbn. rewrite !app_nil_r. reflexivity.
  - cbn [fold_left]. rewrite IH.
    rewrite (IH (Transcription.segment_step ([], []) seg)).
    rewrite (segment_step_from words seg_objs seg). cbn [fst snd].
    rewrite !app_assoc. reflexivity.
Qed.

Lemma transcribe_loop_one (seg : Segment.t) :
  Transcription.transcribe_loop [seg]
  = Transcription.segment_step ([], []) seg.
Proof. reflexivity. Qed.

Lemma transcribe_loop_objs (segments : list Segment.t) :
  snd (Transcription.transcribe_loop segments)
  = map (fun seg => SegObj.mk (Segment.start seg) (Segment.end_ seg)
                      (strip (Segment.text seg)))
      segments.
Proof.
  induction segments as [|seg segments IH]; [reflexivity|].
  unfold Transcription.transcribe_loop. cbn [fold_left].
  rewrite transcribe_loop_from. cbn [snd map]. rewrite IH. f_equal.
  unfold Transcription.segment_step.
  destruct (Segment.words seg); [|reflexivity].
  destruct (strip (Segment.text seg)); [reflexivity|].
  cbn [SegObj.start]. destruct (Segment.start seg); [|reflexivity].
  destruct (_ <=? _)%float; reflexivity.
Qed.

Lemma spread_facts (per_char : float) (chars : str) (t : float) :
  length (spread t per_char chars) = length chars
  /\ map Word.text (spread t per_char chars) = map (fun c => [c]) chars
  /\ Forall (fun a => Word.end_ a = (Word.start a + per_char)%float)
       (spread t per_char chars)
  /\ (forall a, hd_error (spread t per_char chars) = Some a ->
        Word.start a = t)
  /\ forall i a b,
       nth_error (spread t per_char chars) i = Some a ->
       nth_error (spread t per_char chars) (S i) = Some b ->
       Word.start b = Word.end_ a.
Proof.
  revert t. induction chars as [|ch chars IH]; intros t.
  - split; [reflexivity|]. split; [reflexivity|]. split; [constructor|].
    split; [discriminate|]. intros [|i] a b H; discriminate.
  - destruct (IH (t + per_char)%float) as [L [T [E [H0 A]]]].
    cbn [spread length map]. split; [|split; [|split; [|split]]].
    + rewrite L. reflexivity.
    + rewrite T. reflexivity.
    + constructor; [reflexivity | exact E].
    + intros a Ha. injection Ha as <-. reflexivity.
    + intros [|i] a b Ha Hb.
      * injection Ha as <-. cbn [nth_error Word.end_] in *.
        apply H0. destruct (spread (t + per_char) per_char chars);
          [discriminate | exact Hb].
      * apply (A i); assumption.
Qed.

(** X10. The segments are handled one by one, nothing carried from one
    to the next: the words and the segment objects of a list of
    segments are those of its first part followed by those of the rest,
    and there is one segment object for each segment, in order, with
    the times of the segment and its text stripped. *)
Theorem transcribe_loop_composes (before after : list Segment.t) :
  Transcription.transcribe_loop (before ++ after)
  = (fst (Transcription.transcribe_loop before)
     ++ fst (Transcription.transcribe_loop after),
     snd (Transcription.transcribe_loop before)
     ++ snd (Transcription.transcribe_loop after))
  /\ snd (Transcription.transcribe_loop before)
     = map (fun seg => SegObj.mk (Segment.start seg) (Segment.end_ seg)
                         (strip (Segment.text seg)))
         before.
Proof.
  split; [|apply transcribe_loop_objs].
  unfold Transcription.transcribe_loop at 1. rewrite fold_left_app.
  apply transcribe_loop_from.
Qed.

(** X11. A segment that has tokens gives the words of its tokens that
    have both times, in order, with the text and the times of the
    token; a token without a start or without an end is skipped, and
    the text of the segment is not used, even when every token is
    skipped. *)
Theorem untimed_tokens_are_skipped (seg : Segment.t) :
  Segment.words seg <> [] ->
  fst (Transcription.transcribe_loop [seg])
  = flat_map token_word (Segment.words seg)
  /\ length (fst (Transcription.transcribe_loop [seg]))
     <= length (Segment.words seg)
  /\ (Forall (fun tk => Token.start tk = None \/ Token.end_ tk = None)
        (Segment.words seg) ->
      fst (Transcription.transcribe_loop [seg]) = []).
Proof.
  intros Hne. rewrite transcribe_loop_one. unfold Transcription.segment_step.
  destruct (Segment.words seg) as [|tk tks] eqn:E; [congruence|].
  cbn [fst]. rewrite token_loop. cbn [app].
  split; [reflexivity|]. split.
  - generalize (tk :: tks). intros l.
    induction l as [|a l IH]; [reflexivity|].
    cbn [flat_map length]. rewrite length_app. unfold token_word at 1.
    destruct (Token.start a), (Token.end_ a); cbn [length]; lia.
  - generalize (tk :: tks). intros l H.
    induction H as [|a l Ha _ IH]; [reflexivity|].
    cbn [flat_map]. rewrite IH. unfold token_word.
    destruct Ha as [-> | ->]; [reflexivity|].
    destruct (Token.start a); reflexivity.
Qed.

Lemma untimed_tokens_are_skipped_witness :
  fst (Transcription.transcribe_loop [one_token_segment])
  = flat_map token_word (Segment.words one_token_segment)
  /\ length (fst (Transcription.transcribe_loop [one_token_segment]))
     <= length (Segment.words one_token_segment)
  /\ (Forall (fun tk => Token.start tk = None \/ Token.end_ tk = None)
        (Segment.words one_token_segment) ->
      fst (Transcription.transcribe_loop [one_token_segment]) = []).
Proof. apply (untimed_tokens_are_skipped one_token_segment). discriminate. Defined.

(** X12. A segment without tokens, with a start [s] and an end [e]
    for which [e - s <= 0] is false, and whose stripped text is not
    empty, gives one word for each character of the stripped text, in
    order, each one character long; the first starts at [s], each ends
    [per_char = (e - s) / len(chars)] after it starts, and each starts
    where the one before ends. *)
Theorem fallback_spreads_characters (seg : Segment.t) (s e : float) :
  Segment.words seg = [] ->
  Segment.start seg = Some s ->
  Segment.end_ seg = Some e ->
  strip (Segment.text seg) <> [] ->
  (e - s <=? 0)%float = false ->
  let chars := strip (Segment.text seg) in
  let per_char := ((e - s) / Transcription.float_of_len (length chars))%float in
  let words := fst (Transcription.transcribe_loop [seg]) in
  length words = length chars
  /\ map Word.text words = map (fun c => [c]) chars
  /\ Forall (fun a => Word.end_ a = (Word.start a + per_char)%float) words
  /\ (forall a, hd_error words = Some a -> Word.start a = s)
  /\ forall i a b,
       nth_error words i = Some a -> nth_error words (S i) = Some b ->
       Word.start b = Word.end_ a.
Proof.
  intros Hw Hs He Hc Hd. cbv zeta.
  assert (W : fst (Transcription.transcribe_loop [seg])
              = spread s
                  ((e - s) / Transcription.float_of_len
                               (length (strip (Segment.text seg))))%float
                  (strip (Segment.text seg))).
  { rewrite transcribe_loop_one. unfold Transcription.segment_step.
    rewrite Hw. cbn [SegObj.start SegObj.end_]. rewrite Hs, He.
    destruct (strip (Segment.text seg)) as [|c cs]; [congruence|].
    rewrite Hd. cbn [fst]. rewrite char_loop. cbn [app].
    replace (Nat.max (length (c :: cs)) 1) with (length (c :: cs))
      by (cbn [length]; lia).
    reflexivity. }
  rewrite W. apply spread_facts.
Qed.

Lemma fallback_spreads_characters_witness :
  let chars := strip (Segment.text tokenless_segment) in
  let per_char :=
    ((2.5 - 1) / Transcription.float_of_len (length chars))%float in
  let words := fst (Transcription.transcribe_loop [tokenless_segment]) in
  length words = length chars
  /\ map Word.text words = map (fun c => [c]) chars
  /\ Forall (fun a => Word.end_ a = (Word.start a + per_char)%float) words
  /\ (forall a, hd_error words = Some a -> Word.start a = 1%float)
  /\ forall i a b,
       nth_error words i = Some a -> nth_error words (S i) = Some b ->
       Word.start b = Word.end_ a.
Proof.
  apply (fallback_spreads_characters tokenless_segment 1 2.5);
    try reflexivity.
  vm_compute. discriminate.
Defined.

(** X13. A segment without tokens gives no word when its stripped
    text is empty, when its start or its end is missing, or when
    [end - start <= 0]. *)
Theorem degenerate_segment_gives_no_words (seg : Segment.t) :
  Segment.words seg = [] ->
  strip (Segment.text seg) = []
  \/ Segment.start seg = None
  \/ Segment.end_ seg = None
  \/ (exists s e, Segment.start seg = Some s /\ Segment.end_ seg = Some e
                  /\ (e - s <=? 0)%float = true) ->
  fst (Transcription.transcribe_loop [seg]) = [].
Proof.
  intros Hw H. rewrite transcribe_loop_one.
  unfold Transcription.segment_step. rewrite Hw.
  destruct (strip (Segment.text seg)) as [|c cs]; [reflexivity|].
  cbn [SegObj.start SegObj.end_].
  destruct (Segment.start seg) as [s|]; [|reflexivity].
  destruct H as [H | [H | [H | [s' [e [Hs [He Hd]]]]]]]; try discriminate.
  - rewrite H. reflexivity.
  - injection Hs as <-. rewrite He, Hd. reflexivity.
Qed.

Lemma degenerate_segment_gives_no_words_witness :
  fst (Transcription.transcribe_loop
         [Segment.mk (Some 2%float) (Some 2%float) (lit "abc") []]) = [].
Proof.
  apply (degenerate_segment_gives_no_words
           (Segment.mk (Some 2%float) (Some 2%float) (lit "abc") []));
    [reflexivity|].
  right; right; right. exists 2%float, 2%float.
  split; [reflexivity|]. split; reflexivity.
Defined.

(** X14. When no word of its loop has a NaN among its times,
    [transcribe] returns the words of the loop rearranged into the
    order of [(start, end)], none dropped or repeated, and the segment
    objects of the loop unchanged; with no segment it returns no word
    and no segment object. *)
Theorem transcribe_sorts_its_words (segments : list Segment.t) :
  Forall no_nan (fst (Transcription.transcribe_loop segments)) ->
  Pipeline.words_sorted (fst (Transcription.transcribe segments)) = true
  /\ Permutation (fst (Transcription.transcribe segments))
       (fst (Transcription.transcribe_loop segments))
  /\ snd (Transcription.transcribe segments)
     = snd (Transcription.transcribe_loop segments)
  /\ (segments = [] -> Transcription.transcribe segments = ([], [])).
Proof.
  intros _. unfold Transcription.transcribe.
  destruct (Transcription.transcribe_loop segments) as [words seg_objs] eqn:E.
  cbn [fst snd]. split; [apply sort_words_sorted|].
  split; [apply sort_permutes|]. split; [reflexivity|].
  intros ->. cbn in E. injection E as <- <-. reflexivity.
Qed.

Lemma transcribe_sorts_its_words_witness :
  Pipeline.words_sorted
    (fst (Transcription.transcribe [tokenless_segment; one_token_segment]))
  = true
  /\ Permutation
       (fst (Transcription.transcribe [tokenless_segment; one_token_segment]))
       (fst (Transcription.transcribe_loop
               [tokenless_segment; one_token_segment]))
  /\ snd (Transcription.transcribe [tokenless_segment; one_token_segment])
     = snd (Transcription.transcribe_loop
              [tokenless_segment; one_token_segment])
  /\ ([tokenless_segment; one_token_segment] = [] ->
      Transcription.transcribe [tokenless_segment; one_token_segment]
      = ([], [])).
Proof.
  apply (transcribe_sorts_its_words [tokenless_segment; one_token_segment]).
  vm_compute. repeat constructor.
Defined.

(* ------------------------------------------------------------------ *)
(** ** More on the export *)

Lemma int_cases (x : float) :
  (finite x /\ exists a, int x = Ok a)
  \/ (infinite x /\ int x = Raise OverflowError)
  \/ (not_a_number x /\ int x = Raise ValueError).
Proof.
  unfold finite, infinite, not_a_number, int. destruct (Prim2SF x).
  - left. split; [exact I | eexists; reflexivity].
  - right; left. split; [exact I | reflexivity].
  - right; right. split; [exact I | reflexivity].
  - left. split; [exact I | eexists; reflexivity].
Qed.

Lemma float_kinds_apart (x : float) :
  (finite x -> ~ infinite x /\ ~ not_a_number x)
  /\ (infinite x -> ~ not_a_number x).
Proof.
  unfold finite, infinite, not_a_number. destruct (Prim2SF x); tauto.
Qed.

(** X15. The bounds of a clip are computed exactly when both times,
    in milliseconds, are finite.  Otherwise [int] raises, on the start
    first: an [OverflowError] exactly when the start is an infinity, or
    is finite and the end is an infinity; a [ValueError] exactly when
    the start is a NaN, or is finite and the end is a NaN. *)
Theorem ms_bounds_defined_iff_finite (sent : Sentence.t) :
  ((exists bounds, Pipeline.ms_bounds sent = Ok bounds)
   <-> finite (Sentence.start_time sent * 1000)%float
       /\ finite (Sentence.end_time sent * 1000)%float)
  /\ (Pipeline.ms_bounds sent = Raise OverflowError
      <-> infinite (Sentence.start_time sent * 1000)%float
          \/ (finite (Sentence.start_time sent * 1000)%float
              /\ infinite (Sentence.end_time sent * 1000)%float))
  /\ (Pipeline.ms_bounds sent = Raise ValueError
      <-> not_a_number (Sentence.start_time sent * 1000)%float
          \/ (finite (Sentence.start_time sent * 1000)%float
              /\ not_a_number (Sentence.end_time sent * 1000)%float))
  /\ forall e, Pipeline.ms_bounds sent = Raise e ->
               e = OverflowError \/ e = ValueError.
Proof.
  unfold Pipeline.ms_bounds.
  destruct (float_kinds_apart (Sentence.start_time sent * 1000)%float)
    as [Ks1 Ks2].
  destruct (float_kinds_apart (Sentence.end_time sent * 1000)%float)
    as [Ke1 Ke2].
  destruct (int_cases (Sentence.start_time sent * 1000)%float)
    as [[Fs [a ->]] | [[Is ->] | [Ns ->]]]; cbn [bind].
  - destruct (Ks1 Fs) as [nIs nNs].
    destruct (int_cases (Sentence.end_time sent * 1000)%float)
      as [[Fe [b ->]] | [[Ie ->] | [Ne ->]]]; cbn [bind].
    + destruct (Ke1 Fe) as [nIe nNe].
      split; [split; [intros _; split; assumption | intros _; eexists; reflexivity]|].
      split; [split; [discriminate | tauto]|].
      split; [split; [discriminate | tauto]|]. discriminate.
    + split; [split; [intros [? H]; discriminate|]|].
      { intros [_ Fe]. destruct (Ke1 Fe). contradiction. }
      split; [split; [intros _; right; split; assumption | reflexivity]|].
      split; [split; [discriminate|]|].
      { intros [H | [_ H]]; [contradiction|]. destruct (Ke2 Ie H). }
      intros e H. injection H as <-. left. reflexivity.
    + split; [split; [intros [? H]; discriminate|]|].
      { intros [_ Fe]. destruct (Ke1 Fe). contradiction. }
      split; [split; [discriminate|]|].
      { intros [H | [_ H]]; [contradiction|]. destruct (Ke2 H Ne). }
      split; [split; [intros _; right; split; assumption | reflexivity]|].
      intros e H. injection H as <-. right. reflexivity.
  - split; [split; [intros [? H]; discriminate|]|].
    { intros [Fs _]. destruct (Ks1 Fs). contradiction. }
    split; [split; [intros _; left; exact Is | reflexivity]|].
    split; [split; [discriminate|]|].
    { intros [H | [Fs _]]; [destruct (Ks2 Is H)|].
      destruct (Ks1 Fs). contradiction. }
    intros e H. injection H as <-. left. reflexivity.
  - split; [split; [intros [? H]; discriminate|]|].
    { intros [Fs _]. destruct (Ks1 Fs). contradiction. }
    split; [split; [discriminate|]|].
    { intros [H | [Fs _]]; [destruct (Ks2 H Ns)|].
      destruct (Ks1 Fs). contradiction. }
    split; [split; [intros _; left; exact Ns | reflexivity]|].
    intros e H. injection H as <-. right. reflexivity.
Qed.

(** X16. When [main] ends well from the export on, the last things it
    has done are the writing of the manifest and, exactly when
    subtitles were asked for, the writing of the subtitles after it,
    from the same entries, those [export_clips] returned. *)
Theorem subtitles_follow_the_manifest (fails : world -> event -> option exn)
    (round3 : float -> float) (sentences : list Sentence.t) (out_dir : str)
    (export_srt : bool) (wd wd1 : world) :
  Pipeline.main_export fails round3 sentences out_dir export_srt wd
  = (Ok tt, wd1) ->
  exists items wd',
    Pipeline.export_clips fails round3 sentences out_dir wd = (Ok items, wd')
    /\ wd1 = wd' ++ WriteJson (out_dir ++ lit "/segments.json") items
                    :: (if export_srt
                        then [WriteSrt (out_dir ++ lit "/segments.srt") items]
                        else []).
Proof.
  unfold Pipeline.main_export, io_bind at 1. intros H.
  destruct (Pipeline.export_clips fails round3 sentences out_dir wd)
    as [[items|e] wd'] eqn:E; [|discriminate].
  exists items, wd'. split; [reflexivity|].
  unfold io_bind at 1, Pipeline.write_json in H.
  destruct (perform_cases fails
              (WriteJson (out_dir ++ lit "/segments.json") items) wd')
    as [[e [_ P]] | [_ P]]; rewrite P in H; [discriminate|].
  unfold Pipeline.maybe_write_srt in H. destruct export_srt; cbn [negb] in H.
  - destruct (perform_cases fails
                (WriteSrt (out_dir ++ lit "/segments.srt") items)
                (wd' ++ [WriteJson (out_dir ++ lit "/segments.json") items]))
      as [[e [_ Q]] | [_ Q]]; rewrite Q in H; [discriminate|].
    injection H as <-. rewrite <- app_assoc. reflexivity.
  - injection H as <-. reflexivity.
Qed.

Lemma subtitles_follow_the_manifest_witness :
  exists items wd',
    Pipeline.export_clips never_fails (fun x => x) two_sentences (lit "out") []
    = (Ok items, wd')
    /\ [Mkdir (lit "out/segments");
        ExportMp3 (lit "out/segments/segment_001.mp3") 0 500;
        ExportMp3 (lit "out/segments/segment_002.mp3") 500 1000;
        WriteJson (lit "out/segments.json")
          [ClipRecord.mk (lit "Hi.") 0 0.5 (lit "segments/segment_001.mp3");
           ClipRecord.mk (lit "x y") 0.5 1 (lit "segments/segment_002.mp3")];
        WriteSrt (lit "out/segments.srt")
          [ClipRecord.mk (lit "Hi.") 0 0.5 (lit "segments/segment_001.mp3");
           ClipRecord.mk (lit "x y") 0.5 1 (lit "segments/segment_002.mp3")]]
       = wd' ++ WriteJson (lit "out" ++ lit "/segments.json") items
                :: [WriteSrt (lit "out" ++ lit "/segments.srt") items].
Proof.
  apply (subtitles_follow_the_manifest never_fails (fun x => x) two_sentences
           (lit "out") true []).
  vm_compute. reflexivity.
Defined.

(* ------------------------------------------------------------------ *)
(** ** The manifest without the clips *)

Lemma info_loop (round3 : float -> float) (isents : list (nat * Sentence.t))
    (results : list InfoRecord.t) :
  fold_left (PipelineNoFfmpegOutput.info_step round3) isents results
  = results
    ++ map (fun isent =>
              InfoRecord.mk (Sentence.text (snd isent))
                (round3 (Sentence.start_time (snd isent)))
                (round3 (Sentence.end_time (snd isent)))
                (lit "segments/" ++ Pipeline.filename (fst isent))
                PipelineNoFfmpegOutput.NOTE)
        isents.
Proof.
  revert results. induction isents as [|[i sent] isents IH]; intros results.
  - cbn. rewrite app_nil_r. reflexivity.
  - cbn [fold_left map]. rewrite IH. cbn [PipelineNoFfmpegOutput.info_step].
    rewrite <- app_assoc. reflexivity.
Qed.

(** X17. [create_audio_segments_info] raises only when the directory
    cannot be made, whatever the times of the sentences; otherwise it
    makes the directory and returns one entry for each sentence, and
    these entries, without their note, are the entries [export_clips]
    returns for the same sentences when it ends well. *)
Theorem segments_info_matches_export (fails : world -> event -> option exn)
    (round3 : float -> float) (sentences : list Sentence.t) (out_dir : str)
    (wd : world) :
  match fails wd (Mkdir (out_dir ++ lit "/segments")) with
  | Some e =>
      PipelineNoFfmpegOutput.create_audio_segments_info fails round3
        sentences out_dir wd = (Raise e, wd)
  | None =>
      exists items,
        PipelineNoFfmpegOutput.create_audio_segments_info fails round3
          sentences out_dir wd
        = (Ok items, wd ++ [Mkdir (out_dir ++ lit "/segments")])
        /\ length items = length sentences
        /\ forall fails' wd0 items' wd',
             Pipeline.export_clips fails' round3 sentences out_dir wd0
             = (Ok items', wd') ->
             map without_note items = items'
  end.
Proof.
  unfold PipelineNoFfmpegOutput.create_audio_segments_info, io_bind,
    Pipeline.perform.
  destruct (fails wd (Mkdir (out_dir ++ lit "/segments"))) as [e|];
    [reflexivity|].
  eexists. split; [reflexivity|]. rewrite info_loop. cbn [app].
  split; [rewrite length_map; apply length_enumerate|].
  intros fails' wd0 items' wd' H.
  destruct (export_clips_outcome _ _ _ _ _ _ _ H) as [evs [_ [_ [_ [-> _]]]]].
  rewrite map_map. apply map_ext. intros [i sent]. reflexivity.
Qed.

(* ------------------------------------------------------------------ *)
(** ** The check of an uploaded name *)

Lemma cut_last_dot_none (s : str) :
  Viewer.cut_last_dot s = None <-> ~ In 46%N s.
Proof.
  induction s as [|c s IH]; [split; [intros _ [] | reflexivity]|].
  cbn [Viewer.cut_last_dot In].
  destruct (Viewer.cut_last_dot s) as [[a b]|].
  - split; [discriminate|]. intros H. exfalso.
    assert (Hs : ~ In 46%N s) by tauto. apply IH in Hs. discriminate.
  - destruct (N.eqb_spec c 46) as [->|Hc].
    + split; [discriminate | tauto].
    + split; [|reflexivity]. intros _ [E | Hin]; [congruence|].
      apply (proj1 IH eq_refl). exact Hin.
Qed.

Lemma cut_last_dot_some (s a b : str) :
  Viewer.cut_last_dot s = Some (a, b) <-> s = a ++ 46%N :: b /\ ~ In 46%N b.
Proof.
  split.
  - revert a. induction s as [|c s IH]; intros a; [discriminate|].
    cbn [Viewer.cut_last_dot].
    destruct (Viewer.cut_last_dot s) as [[a' b']|] eqn:E.
    + intros H. injection H as <- <-.
      destruct (IH a' eq_refl) as [-> Hb]. split; [reflexivity | exact Hb].
    + destruct (N.eqb_spec c 46) as [->|Hc]; [|discriminate].
      intros H. injection H as <- <-.
      split; [reflexivity | apply cut_last_dot_none; exact E].
  - intros [-> Hb]. induction a as [|c a IH]; cbn [app Viewer.cut_last_dot].
    + rewrite (proj2 (cut_last_dot_none b) Hb). reflexivity.
    + rewrite IH. reflexivity.
Qed.

Lemma str_in_In (x : str) (xs : list str) :
  Viewer.str_in x xs = true <-> In x xs.
Proof.
  unfold Viewer.str_in. rewrite existsb_exists. split.
  - intros [y [Hy E]]. destruct (list_eq_dec N.eq_dec x y); [|discriminate].
    subst. exact Hy.
  - intros H. exists x. split; [exact H|].
    destruct (list_eq_dec N.eq_dec x x); [reflexivity | congruence].
Qed.

Lemma allowed_file_cut (unicode_lower : str -> str) (name : str) :
  Viewer.allowed_file unicode_lower name
  = Ok match Viewer.cut_last_dot name with
       | Some (_, ext) =>
           Viewer.str_in (Viewer.lower unicode_lower ext)
             Viewer.ALLOWED_EXTENSIONS
       | None => false
       end.
Proof.
  unfold Viewer.allowed_file, Viewer.rsplit_dot.
  destruct (Viewer.cut_last_dot name) as [[a b]|] eqn:E.
  - apply cut_last_dot_some in E. destruct E as [-> _].
    replace (contains (a ++ 46%N :: b) 46%N) with true; [reflexivity|].
    symmetry. apply contains_In, in_or_app. right. left. reflexivity.
  - apply cut_last_dot_none in E.
    destruct (contains name 46%N) eqn:C; [|reflexivity].
    apply contains_In in C. contradiction.
Qed.

(** X18. [allowed_file] never raises, and it accepts a name exactly
    when the name has a ['.'] and the part after its last ['.'], in
    lower case, is one of [mp3], [wav], [m4a], [ogg], [flac]. *)
Theorem allowed_file_checks_the_last_extension
    (unicode_lower : str -> str) (name : str) :
  (exists b, Viewer.allowed_file unicode_lower name = Ok b)
  /\ (Viewer.allowed_file unicode_lower name = Ok true
      <-> exists stem ext,
            name = stem ++ [46%N] ++ ext
            /\ ~ In 46%N ext
            /\ In (Viewer.lower unicode_lower ext)
                 [lit "mp3"; lit "wav"; lit "m4a"; lit "ogg"; lit "flac"]).
Proof.
  rewrite allowed_file_cut. split; [eexists; reflexivity|].
  destruct (Viewer.cut_last_dot name) as [[a b]|] eqn:E.
  - apply cut_last_dot_some in E. destruct E as [-> Hb]. split.
    + intros H.
      assert (H' : Viewer.str_in (Viewer.lower unicode_lower b)
                     Viewer.ALLOWED_EXTENSIONS = true) by congruence.
      apply str_in_In in H'.
      exists a, b. split; [reflexivity|]. split; assumption.
    + intros [stem [ext [E [He Hin]]]].
      assert (S : Viewer.cut_last_dot (a ++ 46%N :: b) = Some (stem, ext))
        by (apply cut_last_dot_some; split; assumption).
      assert (S' : Viewer.cut_last_dot (a ++ 46%N :: b) = Some (a, b))
        by (apply cut_last_dot_some; split; [reflexivity | assumption]).
      rewrite S' in S. injection S as <- <-.
      f_equal. apply str_in_In. exact Hin.
  - split; [discriminate|]. intros [stem [ext [-> _]]].
    apply cut_last_dot_none in E. exfalso. apply E.
    apply in_or_app. right. left. reflexivity.
Qed.

(** X19. For an extension in ASCII the answer depends on the extension
    alone, letter case apart: whatever stands before the last ['.']
    (nothing, other dots, directories), the name is accepted exactly
    when the extension with its capitals lowered is one of the five. *)
Theorem allowed_file_ignores_stem_and_case
    (unicode_lower : str -> str) (stem ext : str) :
  ~ In 46%N ext ->
  Forall (fun c => (c < 128)%N) ext ->
  Viewer.allowed_file unicode_lower (stem ++ [46%N] ++ ext)
  = Ok (Viewer.str_in (map Viewer.ascii_lower ext) Viewer.ALLOWED_EXTENSIONS).
Proof.
  intros Hd Ha. rewrite allowed_file_cut.
  rewrite (proj2 (cut_last_dot_some (stem ++ [46%N] ++ ext) stem ext))
    by (split; [reflexivity | exact Hd]).
  unfold Viewer.lower.
  replace (forallb (fun c => (c <? 128)%N) ext) with true; [reflexivity|].
  symmetry. apply forallb_forall. rewrite Forall_forall in Ha.
  intros c Hc. apply N.ltb_lt, Ha, Hc.
Qed.

Lemma allowed_file_ignores_stem_and_case_witness :
  Viewer.allowed_file (fun s => s) (lit "../My.Song" ++ [46%N] ++ lit "MP3")
  = Ok (Viewer.str_in (map Viewer.ascii_lower (lit "MP3"))
          Viewer.ALLOWED_EXTENSIONS).
Proof.
  apply (allowed_file_ignores_stem_and_case (fun s => s) (lit "../My.Song")
           (lit "MP3")).
  - vm_compute. intuition discriminate.
  - repeat constructor.
Defined.

(* ------------------------------------------------------------------ *)
(** ** The characters of the sentences *)

Lemma join_text_app (a b : list Word.t) :
  Pipeline.join_text (a ++ b) = Pipeline.join_text a ++ Pipeline.join_text b.
Proof. unfold Pipeline.join_text. rewrite map_app, concat_app. reflexivity. Qed.

Lemma sentences_of_visible_text (accs : list (list Word.t)) :
  flat_map (fun s => filter not_space (Sentence.text s)) (sentences_of accs)
  = filter not_space (Pipeline.join_text (concat accs)).
Proof.
  induction accs as [|acc accs IH]; [reflexivity|].
  rewrite sentences_of_cons, flat_map_app, IH. cbn [concat].
  rewrite join_text_app, filter_app. f_equal.
  cbn [sentences_of flat_map]. destruct acc as [|first more]; [reflexivity|].
  pose proof (kept_visible (first :: more)) as K.
  destruct (kept (first :: more)); cbn [app flat_map].
  - rewrite app_nil_r. unfold sentence_of. cbn [Sentence.text].
    apply visible_normalize_spacing.
  - symmetry. apply visible_none.
    destruct (forallb isspace (Pipeline.join_text (first :: more)));
      [reflexivity | discriminate].
Qed.

(** X20. The segmenter loses no visible character: the characters that
    are not whitespace of the texts of the sentences, in order, are
    those of the texts of the words, in order. *)
Theorem no_visible_character_lost (words : list Word.t)
    (gap_threshold : float) (max_chars : Z) :
  exists sentences,
    Pipeline.words_to_sentences words gap_threshold max_chars = Ok sentences
    /\ flat_map (fun s => filter not_space (Sentence.text s)) sentences
       = filter not_space (Pipeline.join_text words).
Proof.
  eexists. split; [apply words_to_sentences_accumulators|].
  rewrite sentences_of_visible_text, accumulators_concat. reflexivity.
Qed.
